(** * ANTelbrot: a shallow embedding of [main.cpp]

    The viewer renders the Mandelbrot set by perturbation theory: one
    arbitrary-precision reference orbit ([deep_zoom_point]) and a cheap
    double-precision iteration per pixel ([pt]), coloured through a
    gradient table ([color_table], [palette]).

    Conventions of the embedding.
    - A C++ [double] is a primitive binary64 [float]; every operation on it
      is the kernel's IEEE 754 operation, so closed programs evaluate.
    - [int] and [unsigned] values are [Z]; conversions that can wrap are
      written out ([wrap_int], [to_unsigned], [to_Uint8], [size_t_of_int]).
    - [mpf_class] (GMP) is an interface, [MpfOps]; the development is
      parametric in it and instantiated with exact dyadic numbers.
    - Loops whose bound is not structural carry a [fuel : nat]; a run that
      exhausts it is [OutOfFuel], and each loop is shown to return once
      the fuel exceeds its bound.
    - What C++ leaves undefined is a parameter: [indef] for a
      double-to-int conversion out of range, [stray] for a read of
      [x[k]] past the end of a vector that has storage. A read of the
      empty vector, which has none, and a remainder modulo zero are
      [Undefined]. *)

From Stdlib Require Import ZArith List Bool Lia.
From Stdlib Require Import PrimFloat FloatOps SpecFloat FloatAxioms.
From Stdlib Require Ascii String.
Import ListNotations.

Local Open Scope Z_scope.

(** ** Machine integers and doubles *)

Definition INT_MIN : Z := - 2 ^ 31.
Definition INT_MAX : Z := 2 ^ 31 - 1.

Definition in_int (z : Z) : bool := (INT_MIN <=? z) && (z <=? INT_MAX).

(** Two's complement reading of the low 32 bits. *)
Definition wrap_int (z : Z) : Z := (z + 2 ^ 31) mod 2 ^ 32 - 2 ^ 31.

(** [unsigned] (32 bits): the value an [int] converts to. *)
Definition to_unsigned (z : Z) : Z := z mod 2 ^ 32.

(** [sf::Uint8]: conversion from [int] keeps the low eight bits. *)
Definition to_Uint8 (z : Z) : Z := z mod 256.

(** [size_t] is 64 bits wide (LP64); an [int] operand of a mixed
    expression is converted to it modulo [2^64]. *)
Definition size_t_of_int (z : Z) : Z := z mod 2 ^ 64.

(** Back to [int]: the low 32 bits. *)
Definition int_of_size_t (z : Z) : Z := wrap_int z.

(** [int] to [double]; exact, an [int] has fewer than 53 bits. *)
Definition double_of_int (z : Z) : float :=
  if z <? 0 then PrimFloat.opp (of_uint63 (Uint63Axioms.of_Z (- z)))
  else of_uint63 (Uint63Axioms.of_Z z).

(** [unsigned] to [double]; exact. *)
Definition double_of_unsigned (z : Z) : float :=
  of_uint63 (Uint63Axioms.of_Z z).

(** The integer part of a finite double (rounding toward zero). *)
Definition trunc_double (f : float) : option Z :=
  match Prim2SF f with
  | S754_zero _ => Some 0
  | S754_finite s m e =>
      let mag := Z.shiftl (Zpos m) e in
      Some (if s then - mag else mag)
  | S754_infinity _ | S754_nan => None
  end.

(** The literal [0.01] of the source, the double nearest to 1/100. *)
Definition d_step : float := 0x1.47ae147ae147bp-7%float.

(** A C++ [float] (binary32) is a [spec_float] kept in the binary32
    format; its operations round to 24 bits. *)
Definition float32 : Set := spec_float.

Definition float32_of_int (z : Z) : float32 := binary_normalize 24 128 z 0 false.
Definition float32_mul (a b : float32) : float32 := SFmul 24 128 a b.
Definition float32_sub (a b : float32) : float32 := SFsub 24 128 a b.

(** [float] to [double]; exact, every binary32 value is a binary64 value. *)
Definition double_of_float32 (f : float32) : float := SF2Prim f.

(** ** Outcomes

    A run of the program either returns, or executes an operation C++
    leaves undefined (a division by zero, an access out of range), or is
    cut by the fuel of the embedding. *)

Inductive outcome (A : Type) : Type :=
| Done (a : A)
| Undefined
| OutOfFuel.

Arguments Done {A} a.
Arguments Undefined {A}.
Arguments OutOfFuel {A}.

Definition bind {A B : Type} (m : outcome A) (k : A -> outcome B) : outcome B :=
  match m with
  | Done a => k a
  | Undefined => Undefined
  | OutOfFuel => OutOfFuel
  end.

Notation "x <- m ;; k" := (bind m (fun x => k))
  (at level 61, m at next level, right associativity).

(** ** The SFML types the program uses *)

Module sf.

(** [sf::Color]: four 8-bit channels. *)
Record Color : Set := mkColor { r : Z; g : Z; b : Z; a : Z }.

(** [sf::Color(r, g, b)]: the arguments are [Uint8], alpha defaults
    to 255. *)
Definition rgb (red green blue : Z) : Color :=
  mkColor (to_Uint8 red) (to_Uint8 green) (to_Uint8 blue) 255.

Definition Black : Color := mkColor 0 0 0 255.
Definition White : Color := mkColor 255 255 255 255.
Definition Red : Color := mkColor 255 0 0 255.
Definition Blue : Color := mkColor 0 0 255 255.
Definition Yellow : Color := mkColor 255 255 0 255.

Definition is_Uint8 (z : Z) : Prop := 0 <= z < 256.

(** The channels of a colour are bytes. *)
Definition wf (c : Color) : Prop :=
  is_Uint8 (r c) /\ is_Uint8 (g c) /\ is_Uint8 (b c) /\ is_Uint8 (a c).

(** [sf::Vector2u]. *)
Record Vector2u : Set := mkVector2u { x : Z; y : Z }.

(** [sf::Vertex], the two fields [update] assigns. *)
Record Vertex : Set :=
  mkVertex { position : float32 * float32; color : Color }.

Definition with_position (p : float32 * float32) (v : Vertex) : Vertex :=
  mkVertex p (color v).

Definition with_color (c : Color) (v : Vertex) : Vertex :=
  mkVertex (position v) c.

(** A default-constructed vertex: position (0, 0), white. *)
Definition default_vertex : Vertex :=
  mkVertex (S754_zero false, S754_zero false) White.

End sf.

(** ** [std::complex<double>] *)

Definition complex : Set := (float * float)%type.

Definition real (z : complex) : float := fst z.
Definition imag (z : complex) : float := snd z.

Definition cadd (z w : complex) : complex :=
  (PrimFloat.add (real z) (real w), PrimFloat.add (imag z) (imag w)).

Definition cmul (z w : complex) : complex :=
  (PrimFloat.sub (PrimFloat.mul (real z) (real w)) (PrimFloat.mul (imag z) (imag w)),
   PrimFloat.add (PrimFloat.mul (real z) (imag w)) (PrimFloat.mul (imag z) (real w))).

(** [z * t] for a real [t]. *)
Definition cscale (z : complex) (t : float) : complex :=
  (PrimFloat.mul (real z) t, PrimFloat.mul (imag z) t).

(** [std::norm]: the squared magnitude. *)
Definition norm (z : complex) : float :=
  PrimFloat.add (PrimFloat.mul (real z) (real z)) (PrimFloat.mul (imag z) (imag z)).

(** ** Colour algorithms and the per-pixel iteration *)

Section Program.

(** What a conversion [(int) f] yields when [f] is NaN, infinite or out
    of the range of [int] (undefined in C++; [INT_MIN] on x86). *)
Variable indef : float -> Z.

(** [std::log2] of [<cmath>]. *)
Variable log2 : float -> float.

(** What a read [x[k]] yields when [x] is not empty and [k] is not one
    of its indices (undefined in C++: whatever lies next to the vector's
    storage). *)
Variable stray : Z -> complex.

Definition int_of_double (f : float) : Z :=
  match trunc_double f with
  | Some z => if in_int z then z else wrap_int (indef f)
  | None => wrap_int (indef f)
  end.

(** One channel of [interpolate]:
    [int r = color1.r + (color2.r - color1.r) * mid]. *)
Definition interpolate_channel (c1 c2 : Z) (mid : float) : Z :=
  int_of_double
    (PrimFloat.add (double_of_int c1)
                   (PrimFloat.mul (double_of_int (c2 - c1)) mid)).

Definition interpolate (color1 color2 : sf.Color) (mid : float) : sf.Color :=
  let r := interpolate_channel (sf.r color1) (sf.r color2) mid in
  let g := interpolate_channel (sf.g color1) (sf.g color2) mid in
  let b := interpolate_channel (sf.b color1) (sf.b color2) mid in
  sf.rgb r g b.

(** The inner loop of [color_table]:
    [for (double d = 0; d < 1; d += 0.01)] pushes [interpolate] of the
    current and the next anchor at [d] onto [v]. *)
Fixpoint interpolate_loop (fuel : nat) (c next : sf.Color) (d : float)
    (v : list sf.Color) : outcome (list sf.Color) :=
  match fuel with
  | O => OutOfFuel
  | S fuel' =>
      if PrimFloat.ltb d 1 then
        interpolate_loop fuel' c next (PrimFloat.add d d_step)
                         (v ++ [interpolate c next d])
      else Done v
  end.

(** The outer loop. The iterator [i] is the suffix of [gradient] it
    points at; [gradient.end()] is the empty suffix. *)
Fixpoint color_table_from (fuel : nat) (gradient i : list sf.Color)
    (v : list sf.Color) : outcome (list sf.Color) :=
  match i with
  | [] => Done v
  | c :: i' =>
      let next := match i' with
                  | [] => hd c gradient
                  | n :: _ => n
                  end in
      v' <- interpolate_loop fuel c next 0%float v ;;
      color_table_from fuel gradient i' v'
  end.

Definition color_table (fuel : nat) (gradient : list sf.Color)
    : outcome (list sf.Color) :=
  color_table_from fuel gradient gradient [].

(** [nu] of [palette], after [nu *= 10]. *)
Definition palette_nu (zn_size : float) (iter : Z) : float :=
  let nu := PrimFloat.sub (double_of_int iter) (log2 (log2 zn_size)) in
  PrimFloat.mul nu 10.

(** [int i = (int) nu % gradient.size()]: the cast binds tighter than
    [%], whose operands are then both [size_t]. *)
Definition palette_index (gradient : list sf.Color) (zn_size : float)
    (iter : Z) : outcome Z :=
  let size := Z.of_nat (length gradient) in
  if size =? 0 then Undefined
  else Done (int_of_size_t
               (size_t_of_int (int_of_double (palette_nu zn_size iter)) mod size)).

Definition palette (gradient : list sf.Color) (zn_size : float) (iter : Z)
    : outcome sf.Color :=
  i <- palette_index gradient zn_size iter ;;
  match nth_error gradient (Z.to_nat (size_t_of_int i)) with
  | Some c => Done c
  | None => Undefined
  end.

(** [x[k]] on a reference orbit that is not empty (the empty orbit is
    dealt with in [pt_iterate]). *)
Definition orbit_at (x : list complex) (k : Z) : complex :=
  if (0 <=? k) && (k <? Z.of_nat (length x))
  then nth (Z.to_nat k) x (stray k)
  else stray k.

(** The complex number at the centre of pixel [(i, j)]. *)
Definition pixel_offset (radius : float) (size : sf.Vector2u) (i j : Z)
    : complex :=
  let window_radius :=
    wrap_int (if sf.x size <? sf.y size then sf.x size else sf.y size) in
  (PrimFloat.div
     (PrimFloat.mul radius
        (double_of_int (wrap_int (2 * i - wrap_int (sf.x size)))))
     (double_of_int window_radius),
   PrimFloat.div
     (PrimFloat.mul (PrimFloat.opp radius)
        (double_of_int (wrap_int (2 * j - wrap_int (sf.y size)))))
     (double_of_int window_radius)).

(** The variables of the loop of [pt]; [reads] is not in the source, it
    logs the index of every [x[...]] the loop evaluates, in order. *)
Record pt_state : Set :=
  mk_pt_state { dn : complex; iter : Z; zn_size : float; reads : list Z }.

(** The body of the [do ... while]. *)
Definition pt_body (x : list complex) (d0 : complex) (st : pt_state)
    : pt_state :=
  let dn1 := cmul (dn st) (cadd (orbit_at x (iter st)) (dn st)) in
  let dn2 := cadd dn1 d0 in
  let iter' := wrap_int (iter st + 1) in
  let zn := norm (cadd (cscale (orbit_at x iter') 0.5) dn2) in
  mk_pt_state dn2 iter' zn (reads st ++ [iter st; iter']).

Fixpoint pt_loop (fuel : nat) (x : list complex) (d0 : complex)
    (max_iter : Z) (st : pt_state) : outcome pt_state :=
  match fuel with
  | O => OutOfFuel
  | S fuel' =>
      let st' := pt_body x d0 st in
      if PrimFloat.ltb (zn_size st') 256 && (iter st' <? max_iter)
      then pt_loop fuel' x d0 max_iter st'
      else Done st'
  end.

(** The iteration loop of [pt] from its initial state; the result
    carries the final [iter] and [zn_size]. ([zn_size] starts
    uninitialised in the source; the first pass assigns it.) The first
    pass always reads [x[0]]: on the empty orbit, a vector without
    storage, that read faults and the run returns nothing. *)
Definition pt_iterate (fuel : nat) (x : list complex) (d0 : complex)
    : outcome pt_state :=
  match x with
  | [] => Undefined
  | _ :: _ =>
      let max_iter := int_of_size_t (Z.of_nat (length x)) in
      pt_loop fuel x d0 max_iter (mk_pt_state d0 0 0%float [])
  end.

(** Colour the pixel [(i, j)] (in screen coordinates). *)
Definition pt (fuel : nat) (i j : Z) (x : list complex) (size : sf.Vector2u)
    (radius : float) (gradient : list sf.Color) : outcome sf.Color :=
  let d0 := pixel_offset radius size i j in
  let max_iter := int_of_size_t (Z.of_nat (length x)) in
  st <- pt_iterate fuel x d0 ;;
  c0 <- palette gradient (zn_size st) (iter st) ;;
  if iter st =? max_iter then Done sf.Black else Done c0.

(** An assignment to a field of the vertex at [idx] of the array. *)
Definition modify (set : list sf.Vertex) (idx : Z)
    (f : sf.Vertex -> sf.Vertex) : outcome (list sf.Vertex) :=
  let n := Z.to_nat idx in
  match nth_error set n with
  | Some v => Done (firstn n set ++ f v :: skipn (S n) set)
  | None => Undefined
  end.

(** The vertex array, and the pixels [pt] has been called on so far
    (the latter is not in the source, it logs the calls). *)
Record frame : Set :=
  mk_frame { buf : list sf.Vertex; evaluated : list (Z * Z) }.

Section Update.

Variable size : sf.Vector2u.
Variable x : list complex.
Variable radius : float.
Variable gradient : list sf.Color.

(** [for (int j = 0; j != size.y; ++j)] *)
Fixpoint update_column (fuel : nat) (i j : Z) (fr : frame) : outcome frame :=
  match fuel with
  | O => OutOfFuel
  | S fuel' =>
      if to_unsigned j =? sf.y size then Done fr
      else
        let idx := to_unsigned (i + sf.x size * j) in
        set1 <- modify (buf fr) idx
                  (sf.with_position (float32_of_int i, float32_of_int j)) ;;
        c <- pt fuel i j x size radius gradient ;;
        set2 <- modify set1 idx (sf.with_color c) ;;
        update_column fuel' i (wrap_int (j + 1))
                      (mk_frame set2 (evaluated fr ++ [(i, j)]))
  end.

(** [for (int i = 0; i != size.x; ++i)] *)
Fixpoint update_rows (fuel : nat) (i : Z) (fr : frame) : outcome frame :=
  match fuel with
  | O => OutOfFuel
  | S fuel' =>
      if to_unsigned i =? sf.x size then Done fr
      else
        fr' <- update_column fuel i 0 fr ;;
        update_rows fuel' (wrap_int (i + 1)) fr'
  end.

Definition update (fuel : nat) (set : list sf.Vertex) : outcome frame :=
  update_rows fuel 0 (mk_frame set []).

End Update.

(** The vertex array [main] allocates for a window of [size]:
    [int pixels = size.x * size.y] default vertices, for a product that
    fits an [int]. (A product that wraps to a negative [int] converts to
    a huge [size_t] and the constructor throws; no statement below uses
    the definition there.) *)
Definition new_vertex_array (size : sf.Vector2u) : list sf.Vertex :=
  repeat sf.default_vertex (Z.to_nat (wrap_int (sf.x size * sf.y size))).

End Program.

(** ** Math algorithms: the reference orbit *)

(** The operations of GMP's [mpf_class] the program uses. *)
Class MpfOps (mpf : Type) : Type := {
  mpf_add : mpf -> mpf -> mpf;
  mpf_sub : mpf -> mpf -> mpf;
  mpf_mul : mpf -> mpf -> mpf;
  (** [a > n] and [a < n] against an [int] *)
  mpf_gt_si : mpf -> Z -> bool;
  mpf_lt_si : mpf -> Z -> bool;
  (** [get_d] *)
  mpf_get_d : mpf -> float;
  (** [mpf_class(n, prec)] *)
  mpf_of_si : Z -> mpf;
  (** the conversion of a [double] operand *)
  mpf_of_d : float -> mpf
}.

Section Orbit.

Context {mpf : Type} `{MpfOps mpf}.

(** The test of the early return of [deep_zoom_point]. *)
Definition too_big (re im : mpf) : bool :=
  mpf_gt_si re 1024 || mpf_gt_si im 1024
  || mpf_lt_si re (-1024) || mpf_lt_si im (-1024).

(** [for (int i = 0; i != depth; ++i)] *)
Fixpoint deep_zoom_loop (fuel : nat) (center_r center_i : mpf) (depth : Z)
    (i : Z) (xn_r xn_i : mpf) (v : list complex) : outcome (list complex) :=
  match fuel with
  | O => OutOfFuel
  | S fuel' =>
      if i =? depth then Done v
      else
        let re := mpf_add xn_r xn_r in
        let im := mpf_add xn_i xn_i in
        let c := (mpf_get_d re, mpf_get_d im) in
        let v' := v ++ [c] in
        if too_big re im then Done v'
        else
          let xn_r' :=
            mpf_add (mpf_sub (mpf_mul xn_r xn_r) (mpf_mul xn_i xn_i)) center_r in
          let xn_i' := mpf_add (mpf_mul re xn_i) center_i in
          deep_zoom_loop fuel' center_r center_i depth (wrap_int (i + 1))
                         xn_r' xn_i' v'
  end.

Definition deep_zoom_point (fuel : nat) (center_r center_i : mpf) (depth : Z)
    : outcome (list complex) :=
  deep_zoom_loop fuel center_r center_i depth 0 center_r center_i [].

(** *** The orbit as the specification words it *)

Definition twice (a : mpf) : mpf := mpf_add a a.

(** [X -> X^2 + center] on real and imaginary parts. *)
Definition mandelbrot_step (cr ci : mpf) (X : mpf * mpf) : mpf * mpf :=
  (mpf_add (mpf_sub (mpf_mul (fst X) (fst X)) (mpf_mul (snd X) (snd X))) cr,
   mpf_add (mpf_mul (twice (fst X)) (snd X)) ci).

(** [X_0 = center], [X_(k+1) = X_k^2 + center]. *)
Fixpoint mandelbrot_iterate (cr ci : mpf) (k : nat) : mpf * mpf :=
  match k with
  | O => (cr, ci)
  | S k' => mandelbrot_step cr ci (mandelbrot_iterate cr ci k')
  end.

(** Twice an iterate, converted to fixed precision. *)
Definition doubled_sample (X : mpf * mpf) : complex :=
  (mpf_get_d (twice (fst X)), mpf_get_d (twice (snd X))).

(** A doubled component exceeds 1024 in absolute value. *)
Definition escaped (X : mpf * mpf) : bool :=
  too_big (twice (fst X)) (twice (snd X)).

(** Complex sum and product in the arithmetic of [mpf]. *)
Definition mpf_cadd (z w : mpf * mpf) : mpf * mpf :=
  (mpf_add (fst z) (fst w), mpf_add (snd z) (snd w)).

Definition mpf_cmul (z w : mpf * mpf) : mpf * mpf :=
  (mpf_sub (mpf_mul (fst z) (fst w)) (mpf_mul (snd z) (snd w)),
   mpf_add (mpf_mul (fst z) (snd w)) (mpf_mul (snd z) (fst w))).

(** The first [n] samples of the orbit of the centre. *)
Definition orbit_samples (cr ci : mpf) (n : nat) : list complex :=
  map (fun k => doubled_sample (mandelbrot_iterate cr ci k)) (seq 0 n).

(** *** The view and the left click of [main] *)

Record View : Type := mkView {
  center_r : mpf;
  center_i : mpf;
  radius : float;
  depth : Z;
  size : sf.Vector2u
}.

(** The offset the [MouseButtonPressed] handler adds to the centre for
    a click at [(mx, my)]; [mouse] is an [sf::Vector2f]. *)
Definition click_offset (radius : float) (size : sf.Vector2u) (mx my : Z)
    : complex :=
  let mouse_x := float32_of_int mx in
  let mouse_y := float32_of_int my in
  (PrimFloat.div
     (PrimFloat.mul radius
        (double_of_float32
           (float32_sub (float32_mul (float32_of_int 2) mouse_x)
                        (float32_of_int (wrap_int (sf.x size))))))
     (double_of_unsigned (sf.y size)),
   PrimFloat.div
     (PrimFloat.mul (PrimFloat.opp radius)
        (double_of_float32
           (float32_sub (float32_mul (float32_of_int 2) mouse_y)
                        (float32_of_int (wrap_int (sf.y size))))))
     (double_of_unsigned (sf.y size))).

(** The view after a left click; [main] then recomputes the orbit with
    [deep_zoom_point] and redraws with [update]. *)
Definition mouse_left_pressed (v : View) (mx my : Z) : View :=
  let d := click_offset (radius v) (size v) mx my in
  mkView (mpf_add (center_r v) (mpf_of_d (real d)))
         (mpf_add (center_i v) (mpf_of_d (imag d)))
         (PrimFloat.div (radius v) 2)
         (depth v)
         (size v).

End Orbit.

Arguments View mpf : clear implicits.

(** What the origin needs of the arithmetic: sums, differences and
    products of zeros are zero, exactly, zero is within the bailout, and
    converts to the double 0. GMP computes all of these exactly. *)
Class MpfZeroLaws (mpf : Type) `{MpfOps mpf} : Prop := {
  zero_add : mpf_add (mpf_of_si 0) (mpf_of_si 0) = mpf_of_si 0;
  zero_sub : mpf_sub (mpf_of_si 0) (mpf_of_si 0) = mpf_of_si 0;
  zero_mul : mpf_mul (mpf_of_si 0) (mpf_of_si 0) = mpf_of_si 0;
  zero_gt_1024 : mpf_gt_si (mpf_of_si 0) 1024 = false;
  zero_lt_m1024 : mpf_lt_si (mpf_of_si 0) (-1024) = false;
  zero_get_d : mpf_get_d (mpf_of_si 0) = 0%float
}.

(** *** Exact dyadic numbers, an instance of the interface

    [mant * 2 ^ expo], never rounded: GMP at unbounded precision. *)

Record dyadic : Set := mkDyadic { mant : Z; expo : Z }.

Definition dyadic_add (a b : dyadic) : dyadic :=
  let e := Z.min (expo a) (expo b) in
  mkDyadic (mant a * 2 ^ (expo a - e) + mant b * 2 ^ (expo b - e)) e.

Definition dyadic_opp (a : dyadic) : dyadic := mkDyadic (- mant a) (expo a).

Definition dyadic_sub (a b : dyadic) : dyadic := dyadic_add a (dyadic_opp b).

Definition dyadic_mul (a b : dyadic) : dyadic :=
  mkDyadic (mant a * mant b) (expo a + expo b).

(** The sign of [a - n]. *)
Definition dyadic_compare_si (a : dyadic) (n : Z) : comparison :=
  if 0 <=? expo a then mant a * 2 ^ expo a ?= n
  else mant a ?= n * 2 ^ (- expo a).

Definition dyadic_gt_si (a : dyadic) (n : Z) : bool :=
  match dyadic_compare_si a n with Gt => true | _ => false end.

Definition dyadic_lt_si (a : dyadic) (n : Z) : bool :=
  match dyadic_compare_si a n with Lt => true | _ => false end.

(** [get_d] truncates: the top 53 bits of the mantissa are kept. *)
Definition dyadic_get_d (a : dyadic) : float :=
  let m := Z.abs (mant a) in
  let drop := Z.max 0 (Z.log2 m + 1 - 53) in
  let f := SF2Prim (binary_normalize 53 1024 (Z.shiftr m drop) (expo a + drop) false) in
  if mant a <? 0 then PrimFloat.opp f else f.

Definition dyadic_of_d (f : float) : dyadic :=
  match Prim2SF f with
  | S754_finite s m e => mkDyadic (if s then Zneg m else Zpos m) e
  | _ => mkDyadic 0 0
  end.

#[export] Instance dyadic_ops : MpfOps dyadic := {
  mpf_add := dyadic_add;
  mpf_sub := dyadic_sub;
  mpf_mul := dyadic_mul;
  mpf_gt_si := dyadic_gt_si;
  mpf_lt_si := dyadic_lt_si;
  mpf_get_d := dyadic_get_d;
  mpf_of_si := fun n => mkDyadic n 0;
  mpf_of_d := dyadic_of_d
}.

(** ** Auxiliary definitions for the statements *)

(** The values [d] takes in the inner loop of [color_table], as the loop
    produces them. *)
Fixpoint d_values (fuel : nat) (d : float) : option (list float) :=
  match fuel with
  | O => None
  | S fuel' =>
      if PrimFloat.ltb d 1 then
        option_map (cons d) (d_values fuel' (PrimFloat.add d d_step))
      else Some []
  end.

Definition interpolation_steps : list float :=
  match d_values 101 0%float with
  | Some l => l
  | None => []
  end.

(** The table [color_table] builds from the suffix [i] of the anchors:
    one run of [interpolation_steps] per anchor, toward the next anchor,
    the last one toward [first]. *)
Fixpoint table_of (indef : float -> Z) (first : sf.Color) (i : list sf.Color)
    : list sf.Color :=
  match i with
  | [] => []
  | c :: i' =>
      map (interpolate indef c (hd first i')) interpolation_steps
      ++ table_of indef first i'
  end.

(** [interpolate_channel] at [mid = 0] returns its first argument, tested
    on every pair of bytes. *)
Definition channel_fixed_at_0 (indef : float -> Z) (a b : nat) : bool :=
  interpolate_channel indef (Z.of_nat a) (Z.of_nat b) 0%float =? Z.of_nat a.

Definition all_byte_pairs (P : nat -> nat -> bool) : bool :=
  forallb (fun a => forallb (P a) (seq 0 256)) (seq 0 256).

(** The gradient [main] starts from. *)
Definition default_anchors : list sf.Color :=
  [sf.Black; sf.Blue; sf.rgb 128 0 255; sf.White; sf.Yellow; sf.Red].

(** ** Further definitions for the statements *)

(** The variables of [pt] after [k] passes of its loop. *)
Definition pt_pass (stray : Z -> complex) (x : list complex) (d0 : complex)
    (k : nat) : pt_state :=
  Nat.iter k (pt_body stray x d0) (mk_pt_state d0 0 0%float []).

(** The indices the first [k] passes of the loop of [pt] read. *)
Definition pass_reads (k : nat) : list Z :=
  flat_map (fun p => [Z.of_nat p; Z.of_nat p + 1]) (seq 0 k).

(** A double that is neither NaN nor infinite. *)
Definition is_finite_double (f : float) : bool :=
  match Prim2SF f with
  | S754_zero _ | S754_finite _ _ _ => true
  | S754_infinity _ | S754_nan => false
  end.

Definition is_finite_complex (z : complex) : bool :=
  is_finite_double (real z) && is_finite_double (imag z).

(** The vertex [update] leaves at pixel [(i, j)] when [pt] returns [c]. *)
Definition drawn_vertex (i j : Z) (c : sf.Color) : sf.Vertex :=
  sf.mkVertex (float32_of_int i, float32_of_int j) c.

(** The pixels of a [w] by [h] window in the order [update] visits them. *)
Definition pixels_in_order (w h : nat) : list (Z * Z) :=
  flat_map (fun i => map (fun j => (Z.of_nat i, Z.of_nat j)) (seq 0 h))
           (seq 0 w).

(** A double that is [+0] or [-0]. *)
Definition is_zero_double (f : float) : bool :=
  match Prim2SF f with
  | S754_zero _ => true
  | _ => false
  end.

Definition is_zero_complex (z : complex) : bool :=
  is_zero_double (real z) && is_zero_double (imag z).

(** [interpolate_channel] between equal bytes returns the byte at every
    value of [d] the loop of [color_table] takes, tested on every byte. *)
Definition channel_constant (indef : float -> Z) (a : nat) : bool :=
  forallb (fun d => interpolate_channel indef (Z.of_nat a) (Z.of_nat a) d
                    =? Z.of_nat a)
          interpolation_steps.

(** A colour with its alpha set to 255, as [sf::Color(r, g, b)] builds it. *)
Definition opaque (c : sf.Color) : sf.Color :=
  sf.mkColor (sf.r c) (sf.g c) (sf.b c) 255.

(** ** The text input of [main] (key [I]) *)

Module TextInput.

Import Ascii String.




End TextInput.

(** The floor of a finite double. *)
Definition floor_double (f : float) : option Z :=
  match Prim2SF f with
  | S754_zero _ => Some 0
  | S754_finite s m e => Some (Z.shiftl (if s then Zneg m else Zpos m) e)
  | S754_infinity _ | S754_nan => None
  end.

(** * Properties *)

(** ** Machine integers *)

Lemma wrap_int_small (z : Z) : INT_MIN <= z <= INT_MAX -> wrap_int z = z.
Proof.
  unfold wrap_int, INT_MIN, INT_MAX. intros Hz.
  rewrite Z.mod_small by lia. lia.
Qed.

Lemma wrap_int_range (z : Z) : INT_MIN <= wrap_int z <= INT_MAX.
Proof.
  unfold wrap_int, INT_MIN, INT_MAX.
  pose proof (Z.mod_pos_bound (z + 2 ^ 31) (2 ^ 32) ltac:(lia)). lia.
Qed.

Lemma wrap_int_le (z : Z) : 0 <= z -> wrap_int z <= z.
Proof.
  unfold wrap_int. intros Hz.
  pose proof (Z.mod_le (z + 2 ^ 31) (2 ^ 32) ltac:(lia) ltac:(lia)). lia.
Qed.

Lemma to_unsigned_wrap_int (z : Z) : to_unsigned (wrap_int z) = to_unsigned z.
Proof.
  unfold to_unsigned, wrap_int.
  rewrite Zminus_mod, Zmod_mod, <- Zminus_mod.
  f_equal. lia.
Qed.

Lemma all_byte_pairs_elim (P : nat -> nat -> bool) :
  all_byte_pairs P = true ->
  forall a b, (a < 256)%nat -> (b < 256)%nat -> P a b = true.
Proof.
  unfold all_byte_pairs. intros Hall a b Ha Hb.
  assert (Hia : In a (seq 0 256)) by (apply in_seq; lia).
  assert (Hib : In b (seq 0 256)) by (apply in_seq; lia).
  set (l := seq 0 256) in *. clearbody l.
  rewrite forallb_forall in Hall. specialize (Hall a Hia).
  rewrite forallb_forall in Hall. exact (Hall b Hib).
Qed.

(** ** The palette builder *)

Section ColourFacts.

Variable indef : float -> Z.

Lemma interpolate_loop_d_values (fuel : nat) (c next : sf.Color) :
  forall d v,
    interpolate_loop indef fuel c next d v =
    match d_values fuel d with
    | Some ds => Done (v ++ map (interpolate indef c next) ds)
    | None => OutOfFuel
    end.
Proof.
  induction fuel as [|fuel IH]; intros d v; simpl.
  - reflexivity.
  - destruct (PrimFloat.ltb d 1).
    + rewrite IH. destruct (d_values fuel _); simpl.
      * rewrite <- app_assoc. reflexivity.
      * reflexivity.
    + simpl. rewrite app_nil_r. reflexivity.
Qed.

Lemma channel_fixed_at_0_true :
  all_byte_pairs (channel_fixed_at_0 indef) = true.
Proof. vm_compute. reflexivity. Qed.

Lemma interpolate_channel_at_0 (c1 c2 : Z) :
  sf.is_Uint8 c1 -> sf.is_Uint8 c2 ->
  interpolate_channel indef c1 c2 0%float = c1.
Proof.
  unfold sf.is_Uint8. intros H1 H2.
  pose proof (all_byte_pairs_elim _ channel_fixed_at_0_true
                (Z.to_nat c1) (Z.to_nat c2) ltac:(lia) ltac:(lia)) as Hb.
  unfold channel_fixed_at_0 in Hb.
  rewrite !Z2Nat.id in Hb by lia.
  apply Z.eqb_eq. exact Hb.
Qed.

Lemma interpolate_at_0 (c1 c2 : sf.Color) :
  sf.wf c1 -> sf.wf c2 ->
  let c := interpolate indef c1 c2 0%float in
  sf.r c = sf.r c1 /\ sf.g c = sf.g c1 /\ sf.b c = sf.b c1 /\ sf.a c = 255.
Proof.
  intros (Hr1 & Hg1 & Hb1 & _) (Hr2 & Hg2 & Hb2 & _). simpl.
  rewrite !interpolate_channel_at_0 by assumption.
  unfold to_Uint8, sf.is_Uint8 in *.
  rewrite !Z.mod_small by lia. auto.
Qed.

Lemma d_values_more_fuel (fuel fuel' : nat) :
  (fuel <= fuel')%nat ->
  forall d ds, d_values fuel d = Some ds -> d_values fuel' d = Some ds.
Proof.
  revert fuel'. induction fuel as [|fuel IH]; intros fuel' Hle d ds; simpl.
  - discriminate.
  - destruct fuel' as [|fuel']; [lia|]. simpl.
    destruct (PrimFloat.ltb d 1); [|auto].
    destruct (d_values fuel _) as [l|] eqn:E; [|discriminate].
    rewrite (IH fuel' ltac:(lia) _ _ E). auto.
Qed.

Lemma d_values_101 : d_values 101 0%float = Some interpolation_steps.
Proof. vm_compute. reflexivity. Qed.

Lemma interpolation_steps_length : length interpolation_steps = 100%nat.
Proof. vm_compute. reflexivity. Qed.

Lemma interpolation_steps_first (dflt : float) :
  nth 0 interpolation_steps dflt = 0%float.
Proof. vm_compute. reflexivity. Qed.

Lemma interpolate_loop_run (fuel : nat) (c next : sf.Color) (v : list sf.Color) :
  (100 < fuel)%nat ->
  interpolate_loop indef fuel c next 0%float v =
  Done (v ++ map (interpolate indef c next) interpolation_steps).
Proof.
  intros Hfuel. rewrite interpolate_loop_d_values.
  rewrite (d_values_more_fuel 101 fuel ltac:(lia) _ _ d_values_101).
  reflexivity.
Qed.

Lemma color_table_from_run (fuel : nat) (first : sf.Color) (rest : list sf.Color) :
  (100 < fuel)%nat ->
  forall i v,
    color_table_from indef fuel (first :: rest) i v =
    Done (v ++ table_of indef first i).
Proof.
  intros Hfuel. induction i as [|c i IH]; intros v; simpl.
  - rewrite app_nil_r. reflexivity.
  - rewrite interpolate_loop_run by assumption. simpl.
    rewrite IH, <- app_assoc.
    destruct i; reflexivity.
Qed.

Lemma table_of_length (first : sf.Color) (i : list sf.Color) :
  length (table_of indef first i) = (100 * length i)%nat.
Proof.
  induction i as [|c i IH]; [reflexivity|].
  cbn [table_of length].
  rewrite length_app, length_map, interpolation_steps_length, IH. lia.
Qed.

Lemma table_of_nth (first : sf.Color) :
  forall i k m c1,
    nth_error i k = Some c1 -> (m < 100)%nat ->
    nth_error (table_of indef first i) (100 * k + m) =
    Some (interpolate indef c1 (nth (S k) i first)
                      (nth m interpolation_steps 0%float)).
Proof.
  induction i as [|c i IH]; intros k m c1 Hk Hm.
  - destruct k; discriminate.
  - destruct k as [|k]; simpl in Hk.
    + injection Hk as ->. cbn [table_of].
      rewrite nth_error_app1
        by (rewrite length_map, interpolation_steps_length; lia).
      replace (100 * 0 + m)%nat with m by lia.
      rewrite nth_error_map.
      rewrite (nth_error_nth' _ 0%float)
        by (rewrite interpolation_steps_length; lia).
      destruct i; reflexivity.
    + cbn [table_of].
      rewrite nth_error_app2
        by (rewrite length_map, interpolation_steps_length; lia).
      rewrite length_map, interpolation_steps_length.
      replace (100 * S k + m - 100)%nat with (100 * k + m)%nat by lia.
      rewrite (IH k m c1 Hk Hm). reflexivity.
Qed.

End ColourFacts.

(** C9. For an anchor list of at least two colours, [color_table] returns
    a table of [100 * number of anchors] colours: entry [100 * k + m] is
    the interpolation from anchor [k] toward the next anchor (the first
    one after the last) at the [m]-th value of [d], 100 values per pair;
    the first value of [d] is 0 and the colour emitted there has the red,
    green and blue channels of anchor [k] (and is opaque). *)
Theorem color_table_length_and_anchors :
  forall (indef : float -> Z) (fuel : nat) (gradient : list sf.Color),
    (2 <= length gradient)%nat ->
    Forall sf.wf gradient ->
    (100 < fuel)%nat ->
    exists v,
      color_table indef fuel gradient = Done v
      /\ length v = (100 * length gradient)%nat
      /\ length interpolation_steps = 100%nat
      /\ nth 0 interpolation_steps 1%float = 0%float
      /\ (forall k m c1 c2,
            nth_error gradient k = Some c1 ->
            nth_error gradient (S k mod length gradient) = Some c2 ->
            (m < 100)%nat ->
            nth_error v (100 * k + m) =
            Some (interpolate indef c1 c2 (nth m interpolation_steps 0%float)))
      /\ (forall k c1,
            nth_error gradient k = Some c1 ->
            exists c,
              nth_error v (100 * k) = Some c
              /\ sf.r c = sf.r c1 /\ sf.g c = sf.g c1 /\ sf.b c = sf.b c1
              /\ sf.a c = 255).
Proof.
  intros indef fuel gradient Hlen Hwf Hfuel.
  destruct gradient as [|first rest]; [simpl in Hlen; lia|].
  exists (table_of indef first (first :: rest)).
  assert (Hnext : forall k c1 c2,
             nth_error (first :: rest) k = Some c1 ->
             nth_error (first :: rest) (S k mod length (first :: rest)) = Some c2 ->
             nth (S k) (first :: rest) first = c2).
  { intros k c1 c2 Hk Hn.
    assert (Hlt : (k < length (first :: rest))%nat)
      by (apply nth_error_Some; congruence).
    destruct (Nat.eq_dec (S k) (length (first :: rest))) as [E|E].
    - rewrite E, Nat.Div0.mod_same in Hn. simpl in Hn. injection Hn as <-.
      rewrite nth_overflow by lia. reflexivity.
    - rewrite Nat.mod_small in Hn by lia.
      apply nth_error_nth. exact Hn. }
  split; [|split; [|split; [|split; [|split]]]].
  - unfold color_table. rewrite color_table_from_run by assumption. reflexivity.
  - apply table_of_length.
  - apply interpolation_steps_length.
  - apply interpolation_steps_first.
  - intros k m c1 c2 Hk Hn Hm.
    rewrite (table_of_nth indef first _ k m c1 Hk Hm).
    rewrite (Hnext k c1 c2 Hk Hn). reflexivity.
  - intros k c1 Hk.
    assert (Hlt : (k < length (first :: rest))%nat)
      by (apply nth_error_Some; congruence).
    pose proof (table_of_nth indef first _ k 0 c1 Hk ltac:(lia)) as Hnth.
    replace (100 * k + 0)%nat with (100 * k)%nat in Hnth by lia.
    rewrite interpolation_steps_first in Hnth.
    eexists. split; [exact Hnth|].
    rewrite Forall_forall in Hwf.
    apply (interpolate_at_0 indef).
    + apply Hwf. eapply nth_error_In. exact Hk.
    + destruct (Nat.eq_dec (S k) (length (first :: rest))) as [E|E].
      * rewrite nth_overflow by lia. apply Hwf. left. reflexivity.
      * apply Hwf. apply nth_In. lia.
Qed.

(** ** The perturbation iterator *)

Section PtFacts.

Variable stray : Z -> complex.
Variable x : list complex.
Variable d0 : complex.

Lemma iter_pt_body (st : pt_state) :
  iter (pt_body stray x d0 st) = wrap_int (iter st + 1).
Proof. reflexivity. Qed.

Lemma reads_pt_body (st : pt_state) :
  reads (pt_body stray x d0 st) =
  reads st ++ [iter st; iter (pt_body stray x d0 st)].
Proof. reflexivity. Qed.

(** One equation for the loop: a pass, then the test. *)
Lemma pt_loop_S (fuel : nat) (max_iter : Z) (st : pt_state) :
  pt_loop stray (S fuel) x d0 max_iter st =
  if PrimFloat.ltb (zn_size (pt_body stray x d0 st)) 256
     && (iter (pt_body stray x d0 st) <? max_iter)
  then pt_loop stray fuel x d0 max_iter (pt_body stray x d0 st)
  else Done (pt_body stray x d0 st).
Proof. reflexivity. Qed.

(** The loop returns within [max 1 max_iter - iter] passes; [iter] has
    grown by at least one and stays within [max 1 max_iter]; the loop
    left because its condition failed; the last read was at [iter]. *)
Lemma pt_loop_returns (max_iter : Z) :
  max_iter <= INT_MAX ->
  forall (fuel : nat) (st : pt_state),
    0 <= iter st < Z.max 1 max_iter ->
    Z.max 1 max_iter - iter st <= Z.of_nat fuel ->
    exists st',
      pt_loop stray fuel x d0 max_iter st = Done st'
      /\ iter st < iter st' <= Z.max 1 max_iter
      /\ PrimFloat.ltb (zn_size st') 256 && (iter st' <? max_iter) = false
      /\ In (iter st') (reads st').
Proof.
  intros HM. induction fuel as [|fuel IH]; intros st Hst Hfuel.
  - lia.
  - rewrite pt_loop_S.
    assert (Hnext : iter (pt_body stray x d0 st) = iter st + 1).
    { rewrite iter_pt_body. apply wrap_int_small.
      unfold INT_MIN, INT_MAX in *. lia. }
    destruct (PrimFloat.ltb (zn_size (pt_body stray x d0 st)) 256
              && (iter (pt_body stray x d0 st) <? max_iter)) eqn:Hcond.
    + apply andb_prop in Hcond. destruct Hcond as [_ Hlt].
      apply Z.ltb_lt in Hlt.
      destruct (IH (pt_body stray x d0 st)) as (st' & Hrun & Hit & Hexit & Hrd);
        [lia | lia |].
      exists st'. repeat split; try assumption; lia.
    + exists (pt_body stray x d0 st). repeat split; try assumption; try lia.
      rewrite reads_pt_body. apply in_or_app. right. right. left. reflexivity.
Qed.

(** Over an orbit with storage the loop is entered. *)
Lemma pt_iterate_nonempty (fuel : nat) :
  x <> [] ->
  pt_iterate stray fuel x d0 =
  pt_loop stray fuel x d0 (int_of_size_t (Z.of_nat (length x)))
          (mk_pt_state d0 0 0%float []).
Proof.
  intros Hne. unfold pt_iterate. destruct x; [congruence | reflexivity].
Qed.

Lemma pt_iterate_returns (fuel : nat) :
  x <> [] ->
  (length x < fuel)%nat ->
  let max_iter := int_of_size_t (Z.of_nat (length x)) in
  exists st,
    pt_iterate stray fuel x d0 = Done st
    /\ 1 <= iter st <= Z.max 1 max_iter
    /\ PrimFloat.ltb (zn_size st) 256 && (iter st <? max_iter) = false
    /\ In (iter st) (reads st).
Proof.
  intros Hne Hfuel max_iter.
  rewrite pt_iterate_nonempty by exact Hne.
  assert (HM : max_iter <= INT_MAX) by apply wrap_int_range.
  assert (Hle : max_iter <= Z.of_nat (length x))
    by (apply wrap_int_le; lia).
  destruct (pt_loop_returns max_iter HM fuel (mk_pt_state d0 0 0%float []))
    as (st & Hrun & Hit & Hexit & Hrd); simpl; try lia.
  exists st. simpl in Hit. repeat split; try assumption; lia.
Qed.

End PtFacts.

(** C1. For every pixel offset and every non-empty reference orbit the
    loop of [pt] returns, and the [iter] it returns is at most the length
    of the orbit; the loop leaves when [zn_size < 256] fails or [iter]
    equals the length of the orbit. *)
Theorem pt_iter_le_orbit_length :
  forall (stray : Z -> complex) (fuel : nat) (x : list complex) (d0 : complex),
    x <> [] ->
    (length x < fuel)%nat ->
    exists st,
      pt_iterate stray fuel x d0 = Done st
      /\ iter st <= Z.of_nat (length x)
      /\ (Z.of_nat (length x) <= INT_MAX ->
          PrimFloat.ltb (zn_size st) 256 = false
          \/ iter st = Z.of_nat (length x)).
Proof.
  intros stray fuel x d0 Hne Hfuel.
  destruct (pt_iterate_returns stray x d0 fuel Hne Hfuel)
    as (st & Hrun & Hit & Hexit & _).
  assert (Hlen : 1 <= Z.of_nat (length x))
    by (destruct x; [congruence | simpl; lia]).
  pose proof (wrap_int_le (Z.of_nat (length x)) ltac:(lia)) as Hle.
  unfold int_of_size_t in *.
  exists st. split; [exact Hrun|]. split; [lia|].
  intros Hint.
  rewrite wrap_int_small in Hexit, Hit by (unfold INT_MIN; lia).
  apply andb_false_iff in Hexit. destruct Hexit as [Hz|Hi].
  - left. exact Hz.
  - right. apply Z.ltb_ge in Hi. lia.
Qed.

(** C10. The body of the loop of [pt] runs before its condition is
    tested. For every pixel offset, also one beyond the escape threshold
    from the start, the loop over a non-empty orbit returns with [iter]
    at least 1; and over any orbit no run returns an [iter] below 1: a
    count of 0 is never produced. (Over the empty orbit the first read
    faults and no count is returned at all.) *)
Theorem pt_iter_at_least_1 :
  forall (stray : Z -> complex) (fuel : nat) (x : list complex) (d0 : complex),
    (length x < fuel)%nat ->
    (x <> [] ->
     exists st, pt_iterate stray fuel x d0 = Done st /\ 1 <= iter st)
    /\ (forall st, pt_iterate stray fuel x d0 = Done st -> 1 <= iter st)
    /\ (x = [] -> pt_iterate stray fuel x d0 = Undefined).
Proof.
  intros stray fuel x d0 Hfuel.
  assert (Hlive : x <> [] ->
                  exists st, pt_iterate stray fuel x d0 = Done st
                             /\ 1 <= iter st).
  { intros Hne.
    destruct (pt_iterate_returns stray x d0 fuel Hne Hfuel)
      as (st & Hrun & Hit & _).
    exists st. split; [exact Hrun | lia]. }
  split; [exact Hlive|]. split.
  - intros st Hrun. destruct x as [|c x'].
    + discriminate Hrun.
    + destruct (Hlive ltac:(discriminate)) as (st' & Hrun' & Hit).
      rewrite Hrun in Hrun'. injection Hrun' as <-. exact Hit.
  - intros ->. reflexivity.
Qed.

(** C2. On the orbit of one sample [0] and the pixel offset [0] the loop
    of [pt] makes one pass: it reads [x[0]], increments [iter] to 1 and
    reads [x[1]], which is past the end of the orbit. *)
Theorem pt_reads_past_the_end :
  forall (stray : Z -> complex),
    let x := [(0%float, 0%float)] in
    exists st,
      pt_iterate stray 2 x (0%float, 0%float) = Done st
      /\ iter st = 1
      /\ reads st = [0; 1]
      /\ In 1 (reads st)
      /\ (1 <? Z.of_nat (length x)) = false.
Proof.
  intros stray x. unfold pt_iterate, x. cbv beta iota zeta.
  rewrite pt_loop_S.
  replace (iter (pt_body stray [(0%float, 0%float)] (0%float, 0%float)
                   (mk_pt_state (0%float, 0%float) 0 0%float [])) <?
           int_of_size_t (Z.of_nat (length [(0%float, 0%float)])))
    with false by reflexivity.
  rewrite andb_false_r.
  eexists. split; [reflexivity|].
  repeat split. right. left. reflexivity.
Qed.

(** Every run of the loop that classifies the pixel as inside the set
    ([iter] equal to the length of the orbit) has read the orbit at that
    length, one past its last sample. *)
Lemma pt_in_set_reads_past_the_end :
  forall (stray : Z -> complex) (fuel : nat) (x : list complex) (d0 : complex)
         (st : pt_state),
    (length x < fuel)%nat ->
    pt_iterate stray fuel x d0 = Done st ->
    iter st = Z.of_nat (length x) ->
    In (Z.of_nat (length x)) (reads st).
Proof.
  intros stray fuel x d0 st Hfuel Hrun Hin.
  assert (Hne : x <> []) by (intros ->; discriminate Hrun).
  destruct (pt_iterate_returns stray x d0 fuel Hne Hfuel)
    as (st' & Hrun' & _ & _ & Hrd).
  rewrite Hrun in Hrun'. injection Hrun' as <-.
  rewrite <- Hin. exact Hrd.
Qed.

(** ** The colour mapper *)

(** A double that is at most 1 is below 256. *)
Lemma leb_1_ltb_256 (z : float) :
  PrimFloat.leb z 1 = true -> PrimFloat.ltb z 256 = true.
Proof.
  rewrite FloatAxioms.leb_spec, FloatAxioms.ltb_spec.
  assert (H1 : Prim2SF 1 = S754_finite false 4503599627370496 (-52))
    by (vm_compute; reflexivity).
  assert (H256 : Prim2SF 256 = S754_finite false 4503599627370496 (-44))
    by (vm_compute; reflexivity).
  rewrite H1, H256. clear H1 H256.
  unfold SFleb, SFltb, SFcompare.
  destruct (Prim2SF z) as [s|s| |s m e]; try (destruct s; intros Hc; congruence).
  - intros Hc. exact Hc.
  - destruct s; [intros _; reflexivity|].
    destruct (Z.compare_spec e (-52)); destruct (Z.compare_spec e (-44));
      intros Hc; try reflexivity; try discriminate; lia.
Qed.

Section PaletteFacts.

Variable indef : float -> Z.
Variable log2 : float -> float.

Lemma int_of_double_range (f : float) :
  INT_MIN <= int_of_double indef f <= INT_MAX.
Proof.
  unfold int_of_double.
  destruct (trunc_double f) as [z|]; [|apply wrap_int_range].
  destruct (in_int z) eqn:E; [|apply wrap_int_range].
  unfold in_int in E. apply andb_prop in E. destruct E as [E1 E2].
  apply Z.leb_le in E1. apply Z.leb_le in E2. lia.
Qed.

Lemma palette_index_returns (gradient : list sf.Color) (zn_size : float)
    (iter : Z) :
  gradient <> [] ->
  Z.of_nat (length gradient) <= INT_MAX ->
  exists i,
    palette_index indef log2 gradient zn_size iter = Done i
    /\ 0 <= i < Z.of_nat (length gradient)
    /\ i = size_t_of_int (int_of_double indef (palette_nu log2 zn_size iter))
           mod Z.of_nat (length gradient).
Proof.
  intros Hne Hlen. unfold palette_index.
  assert (Hpos : 0 < Z.of_nat (length gradient))
    by (destruct gradient; [congruence | simpl; lia]).
  destruct (Z.eqb_spec (Z.of_nat (length gradient)) 0) as [E|_]; [lia|].
  eexists. split; [reflexivity|].
  set (n := size_t_of_int _).
  pose proof (Z.mod_pos_bound n _ Hpos) as Hmod.
  unfold int_of_size_t.
  rewrite wrap_int_small by (unfold INT_MIN, INT_MAX in *; lia).
  split; [exact Hmod | reflexivity].
Qed.

Lemma int_of_double_in_range (f : float) (z : Z) :
  trunc_double f = Some z -> INT_MIN <= z <= INT_MAX ->
  int_of_double indef f = z.
Proof.
  intros Hf Hz. unfold int_of_double. rewrite Hf.
  unfold in_int.
  replace (INT_MIN <=? z) with true by (symmetry; apply Z.leb_le; lia).
  replace (z <=? INT_MAX) with true by (symmetry; apply Z.leb_le; lia).
  reflexivity.
Qed.

Lemma palette_returns (gradient : list sf.Color) (zn_size : float) (iter : Z) :
  gradient <> [] ->
  Z.of_nat (length gradient) <= INT_MAX ->
  exists i c,
    palette_index indef log2 gradient zn_size iter = Done i
    /\ 0 <= i < Z.of_nat (length gradient)
    /\ nth_error gradient (Z.to_nat i) = Some c
    /\ palette indef log2 gradient zn_size iter = Done c
    /\ (forall z,
          trunc_double (palette_nu log2 zn_size iter) = Some z ->
          0 <= z <= INT_MAX ->
          i = z mod Z.of_nat (length gradient))
    /\ (forall z,
          trunc_double (palette_nu log2 zn_size iter) = Some z ->
          INT_MIN <= z < 0 ->
          i = (z + 2 ^ 64) mod Z.of_nat (length gradient)).
Proof.
  intros Hne Hlen.
  destruct (palette_index_returns gradient zn_size iter Hne Hlen)
    as (i & Hidx & Hi & Hval).
  destruct (nth_error gradient (Z.to_nat i)) as [c|] eqn:Hc.
  - exists i, c. split; [exact Hidx|]. split; [exact Hi|].
    split; [exact Hc|]. split.
    + unfold palette. rewrite Hidx. cbn [bind].
      unfold size_t_of_int. unfold INT_MAX in Hlen.
      rewrite Z.mod_small by lia. rewrite Hc. reflexivity.
    + split.
      * intros z Hz Hrange.
        rewrite (int_of_double_in_range _ z Hz) in Hval
          by (unfold INT_MIN; lia).
        unfold size_t_of_int in Hval. unfold INT_MAX in Hrange.
        rewrite (Z.mod_small z) in Hval by lia. exact Hval.
      * intros z Hz Hrange.
        rewrite (int_of_double_in_range _ z Hz) in Hval
          by (unfold INT_MAX; lia).
        unfold size_t_of_int in Hval. unfold INT_MIN in Hrange.
        rewrite <- (Z.mod_add z 1 (2 ^ 64)) in Hval by lia.
        rewrite (Z.mod_small (z + 1 * 2 ^ 64)) in Hval by lia.
        rewrite Z.mul_1_l in Hval. exact Hval.
  - apply nth_error_None in Hc. lia.
Qed.

End PaletteFacts.

(** C5, as the claim states it, fails for a negative [nu]: the index is
    not the floor of [nu] reduced modulo the length of the palette. At
    [nu = -20.625] on a palette of 600 colours the floor is -21, whose
    residue is 579, while [palette] computes the index 596. *)
Lemma palette_index_is_not_floor_mod :
  let log2 := fun _ : float => 3.0625%float in
  let gradient := repeat sf.Black 600 in
  palette_nu log2 300 1 = (-20.625)%float
  /\ floor_double (palette_nu log2 300 1) = Some (-21)
  /\ (-21) mod Z.of_nat (length gradient) = 579
  /\ palette_index (fun _ => 0) log2 gradient 300 1 = Done 596.
Proof. vm_compute. repeat split. Qed.

(** C5, amended. For every iteration count and every final magnitude,
    whatever [log2] returns and whatever the conversion to [int] yields,
    the index [palette] computes, [(int) nu] converted to [size_t] and
    reduced modulo the length of the palette, lies in
    [0, palette.length), and the lookup at it succeeds (the palette is
    not empty and its length fits an [int]). Where [nu] has an integer
    part [z] (rounding toward zero) that fits an [int], the index is
    [z mod palette.length] for [z >= 0] and
    [(z + 2^64) mod palette.length] for [z < 0]. *)
Theorem palette_index_in_bounds :
  forall (indef : float -> Z) (log2 : float -> float)
         (gradient : list sf.Color) (zn_size : float) (iter : Z),
    gradient <> [] ->
    Z.of_nat (length gradient) <= INT_MAX ->
    exists i c,
      palette_index indef log2 gradient zn_size iter = Done i
      /\ 0 <= i < Z.of_nat (length gradient)
      /\ nth_error gradient (Z.to_nat i) = Some c
      /\ palette indef log2 gradient zn_size iter = Done c
      /\ (forall z,
            trunc_double (palette_nu log2 zn_size iter) = Some z ->
            0 <= z <= INT_MAX ->
            i = z mod Z.of_nat (length gradient))
      /\ (forall z,
            trunc_double (palette_nu log2 zn_size iter) = Some z ->
            INT_MIN <= z < 0 ->
            i = (z + 2 ^ 64) mod Z.of_nat (length gradient)).
Proof.
  intros. apply palette_returns; assumption.
Qed.

(** C4, as the claim states it, fails: [palette] has no guard. Two
    logarithms that agree on every positive argument, and differ only
    outside the domain, give different colours at [zn_size = 0.5]. *)
Lemma palette_depends_on_log2_outside_its_domain :
  exists (log2a log2b : float -> float) (indef : float -> Z)
         (gradient : list sf.Color) (zn_size : float) (iter : Z),
    (forall y, PrimFloat.ltb 0 y = true -> log2a y = log2b y)
    /\ PrimFloat.leb zn_size 1 = true
    /\ palette indef log2a gradient zn_size iter
       <> palette indef log2b gradient zn_size iter.
Proof.
  exists (fun y => if PrimFloat.ltb 0 y then (-1)%float else 0%float).
  exists (fun y => if PrimFloat.ltb 0 y then (-1)%float else 5%float).
  exists (fun _ => 0), [sf.Black; sf.Red; sf.Blue], 0.5%float, 7.
  split; [|split].
  - intros y Hy. rewrite Hy. reflexivity.
  - reflexivity.
  - vm_compute. discriminate.
Qed.

(** C4, amended. The guard is in the caller: for a non-empty orbit,
    [pt] returns black, whatever [log2] and the conversion to [int] do,
    whenever the final [zn_size] is below 256, in particular when it is
    at most 1; and when [pt] returns the colour of [palette] ([iter]
    differs from the length of the orbit), [zn_size < 256] is false. *)
Theorem pt_guards_palette :
  forall (indef : float -> Z) (log2 : float -> float) (stray : Z -> complex)
         (fuel : nat) (i j : Z) (x : list complex) (size : sf.Vector2u)
         (radius : float) (gradient : list sf.Color),
    x <> [] ->
    Z.of_nat (length x) <= INT_MAX ->
    gradient <> [] ->
    Z.of_nat (length gradient) <= INT_MAX ->
    (length x < fuel)%nat ->
    exists st,
      pt_iterate stray fuel x (pixel_offset radius size i j) = Done st
      /\ (PrimFloat.leb (zn_size st) 1 = true ->
          pt indef log2 stray fuel i j x size radius gradient = Done sf.Black)
      /\ (PrimFloat.ltb (zn_size st) 256 = true ->
          pt indef log2 stray fuel i j x size radius gradient = Done sf.Black)
      /\ (iter st <> Z.of_nat (length x) ->
          PrimFloat.ltb (zn_size st) 256 = false
          /\ pt indef log2 stray fuel i j x size radius gradient =
             palette indef log2 gradient (zn_size st) (iter st)).
Proof.
  intros indef log2 stray fuel i j x size radius gradient
         Hx Hxlen Hg Hglen Hfuel.
  destruct (pt_iterate_returns stray x (pixel_offset radius size i j) fuel
              Hx Hfuel)
    as (st & Hrun & Hit & Hexit & _).
  destruct (palette_returns indef log2 gradient (zn_size st) (iter st) Hg Hglen)
    as (k & c & _ & _ & _ & Hpal & _).
  assert (Hlen : 1 <= Z.of_nat (length x))
    by (destruct x; [congruence | simpl; lia]).
  unfold int_of_size_t in *.
  rewrite wrap_int_small in Hexit, Hit by (unfold INT_MIN; lia).
  assert (Hblack : PrimFloat.ltb (zn_size st) 256 = true ->
                   pt indef log2 stray fuel i j x size radius gradient
                   = Done sf.Black).
  { intros Hz. rewrite Hz in Hexit. simpl in Hexit.
    apply Z.ltb_ge in Hexit.
    unfold pt. rewrite Hrun. simpl. rewrite Hpal. simpl.
    unfold int_of_size_t. rewrite wrap_int_small by (unfold INT_MIN; lia).
    replace (iter st =? Z.of_nat (length x)) with true
      by (symmetry; apply Z.eqb_eq; lia).
    reflexivity. }
  exists st. split; [exact Hrun|]. split; [|split].
  - intros Hz. apply Hblack, leb_1_ltb_256, Hz.
  - exact Hblack.
  - intros Hne. split.
    + apply andb_false_iff in Hexit. destruct Hexit as [Hz|Hi]; [exact Hz|].
      apply Z.ltb_ge in Hi. lia.
    + unfold pt. rewrite Hrun. simpl. rewrite Hpal. simpl.
      unfold int_of_size_t. rewrite wrap_int_small by (unfold INT_MIN; lia).
      replace (iter st =? Z.of_nat (length x)) with false
        by (symmetry; apply Z.eqb_neq; exact Hne).
      reflexivity.
Qed.

(** ** The frame orchestrator *)

Section UpdateFacts.

Variable indef : float -> Z.
Variable log2 : float -> float.
Variable stray : Z -> complex.
Variable size : sf.Vector2u.
Variable x : list complex.
Variable radius : float.
Variable gradient : list sf.Color.

Lemma to_unsigned_succ (i : Z) :
  to_unsigned i < 2 ^ 32 - 1 ->
  to_unsigned (wrap_int (i + 1)) = to_unsigned i + 1.
Proof.
  intros Hi. rewrite to_unsigned_wrap_int. unfold to_unsigned in *.
  pose proof (Z.mod_pos_bound i (2 ^ 32) ltac:(lia)) as Hb.
  rewrite Zplus_mod. rewrite (Z.mod_small 1) by lia.
  apply Z.mod_small. lia.
Qed.

(** With no row to draw the inner loop leaves at its first test. *)
Lemma update_column_zero_height (fuel : nat) (i : Z) (fr : frame) :
  sf.y size = 0 ->
  update_column indef log2 stray size x radius gradient (S fuel) i 0 fr
  = Done fr.
Proof.
  intros Hy. simpl. rewrite Hy. reflexivity.
Qed.

(** With no row to draw the outer loop counts up to [size.x] and changes
    nothing. *)
Lemma update_rows_zero_height :
  sf.y size = 0 ->
  0 <= sf.x size < 2 ^ 32 ->
  forall (fuel : nat) (i : Z) (fr : frame),
    to_unsigned i <= sf.x size ->
    sf.x size - to_unsigned i < Z.of_nat fuel ->
    update_rows indef log2 stray size x radius gradient fuel i fr = Done fr.
Proof.
  intros Hy Hx. induction fuel as [|fuel IH]; intros i fr Hi Hfuel.
  - lia.
  - cbn [update_rows].
    destruct (Z.eqb_spec (to_unsigned i) (sf.x size)) as [E|E]; [reflexivity|].
    rewrite update_column_zero_height by assumption.
    cbn [bind].
    assert (Hs : to_unsigned (wrap_int (i + 1)) = to_unsigned i + 1)
      by (apply to_unsigned_succ; lia).
    apply IH; rewrite Hs; lia.
Qed.

End UpdateFacts.

(** C7. On a viewport of zero area ([size.x = 0] or [size.y = 0])
    [update] returns with the vertex array unchanged and without a single
    call of [pt], hence without a division by [window_radius]; the array
    [main] allocates for such a viewport is empty. *)
Theorem update_zero_area :
  forall (indef : float -> Z) (log2 : float -> float) (stray : Z -> complex)
         (size : sf.Vector2u) (x : list complex) (radius : float)
         (gradient : list sf.Color) (fuel : nat) (set : list sf.Vertex),
    sf.x size = 0 \/ sf.y size = 0 ->
    0 <= sf.x size < 2 ^ 32 ->
    sf.x size < Z.of_nat fuel ->
    update indef log2 stray size x radius gradient fuel set
    = Done (mk_frame set [])
    /\ new_vertex_array size = []
    /\ update indef log2 stray size x radius gradient fuel
              (new_vertex_array size)
       = Done (mk_frame [] []).
Proof.
  intros indef log2 stray size x radius gradient fuel set Hzero Hx Hfuel.
  assert (Hrun : forall s,
             update indef log2 stray size x radius gradient fuel s
             = Done (mk_frame s [])).
  { intros s. unfold update. destruct Hzero as [Hx0|Hy0].
    - destruct fuel as [|fuel]; [lia|].
      cbn [update_rows]. rewrite Hx0. reflexivity.
    - apply update_rows_zero_height; try assumption.
      + unfold to_unsigned. rewrite Z.mod_0_l by lia. lia.
      + unfold to_unsigned. rewrite Z.mod_0_l by lia. lia. }
  assert (Hempty : new_vertex_array size = []).
  { unfold new_vertex_array.
    replace (sf.x size * sf.y size) with 0 by (destruct Hzero; nia).
    reflexivity. }
  split; [apply Hrun|]. split; [exact Hempty|].
  rewrite Hempty. apply Hrun.
Qed.

(** ** The left click *)

(** C6. On a portrait window of 100 by 200 pixels, at radius 2, a click at
    the pixel [(0, 0)] moves the centre by [(-1, 2)], while [pt] places
    that pixel at offset [(-2, 4)]: the handler divides by [size.y], [pt]
    by the smaller of [size.x] and [size.y]. *)
Theorem click_offset_differs_from_pixel_offset :
  let size := sf.mkVector2u 100 200 in
  click_offset 2 size 0 0 = ((-1)%float, 2%float)
  /\ pixel_offset 2 size 0 0 = ((-2)%float, 4%float)
  /\ click_offset 2 size 0 0 <> pixel_offset 2 size 0 0.
Proof.
  vm_compute. repeat split. intros E.
  assert (Hf : PrimFloat.eqb (fst ((-1)%float, 2%float))
                             (fst ((-2)%float, 4%float)) = true)
    by (rewrite <- E; reflexivity).
  vm_compute in Hf. discriminate.
Qed.

(** On a landscape window the two conversions agree, here at the corners
    and the centre of a 1920 by 1080 window. *)
Lemma click_offset_agrees_on_landscape_samples :
  let size := sf.mkVector2u 1920 1080 in
  forallb (fun p : Z * Z =>
    let (mx, my) := p in
    PrimFloat.Leibniz.eqb (real (click_offset 2 size mx my))
                          (real (pixel_offset 2 size mx my))
    && PrimFloat.Leibniz.eqb (imag (click_offset 2 size mx my))
                             (imag (pixel_offset 2 size mx my)))
    [(0, 0); (1919, 0); (0, 1079); (1919, 1079); (960, 540); (17, 1000)]
  = true.
Proof. vm_compute. reflexivity. Qed.

(** ** The reference orbit *)

Section OrbitFacts.

Context {mpf : Type} `{MpfOps mpf}.

Variable center_r center_i : mpf.

Lemma orbit_samples_S (n : nat) :
  orbit_samples center_r center_i (S n) =
  orbit_samples center_r center_i n
  ++ [doubled_sample (mandelbrot_iterate center_r center_i n)].
Proof.
  unfold orbit_samples. rewrite seq_S, map_app. reflexivity.
Qed.

Lemma orbit_samples_length (n : nat) :
  length (orbit_samples center_r center_i n) = n.
Proof.
  unfold orbit_samples. rewrite length_map, length_seq. reflexivity.
Qed.

Lemma orbit_samples_nth (n k : nat) :
  (k < n)%nat ->
  nth_error (orbit_samples center_r center_i n) k =
  Some (doubled_sample (mandelbrot_iterate center_r center_i k)).
Proof.
  intros Hk. unfold orbit_samples.
  rewrite nth_error_map, nth_error_seq.
  destruct (Nat.ltb_spec k n); [reflexivity | lia].
Qed.

(** The loop, entered at pass [k] with the [k]-th iterate and the first
    [k] samples, returns the first [n] samples for some [n]: no iterate
    before the last sample has escaped, and if [n] is short of [depth]
    the iterate of the last sample has. *)
Lemma deep_zoom_loop_run (depth : Z) :
  0 <= depth <= INT_MAX ->
  forall (fuel k : nat),
    (k <= Z.to_nat depth)%nat ->
    (Z.to_nat depth - k < fuel)%nat ->
    (forall j, (j < k)%nat ->
               escaped (mandelbrot_iterate center_r center_i j) = false) ->
    exists n,
      deep_zoom_loop fuel center_r center_i depth (Z.of_nat k)
        (fst (mandelbrot_iterate center_r center_i k))
        (snd (mandelbrot_iterate center_r center_i k))
        (orbit_samples center_r center_i k)
      = Done (orbit_samples center_r center_i n)
      /\ (k <= n <= Z.to_nat depth)%nat
      /\ (forall j, (S j < n)%nat ->
                    escaped (mandelbrot_iterate center_r center_i j) = false)
      /\ ((n < Z.to_nat depth)%nat ->
          (1 <= n)%nat
          /\ escaped (mandelbrot_iterate center_r center_i (n - 1)) = true).
Proof.
  intros Hdepth. induction fuel as [|fuel IH]; intros k Hk Hfuel Hbefore.
  - lia.
  - cbn [deep_zoom_loop].
    destruct (Z.eqb_spec (Z.of_nat k) depth) as [E|E].
    + exists k. split; [reflexivity|]. split; [lia|]. split.
      * intros j Hj. apply Hbefore. lia.
      * lia.
    + rewrite <- orbit_samples_S.
      change (too_big (mpf_add (fst (mandelbrot_iterate center_r center_i k))
                               (fst (mandelbrot_iterate center_r center_i k)))
                      (mpf_add (snd (mandelbrot_iterate center_r center_i k))
                               (snd (mandelbrot_iterate center_r center_i k))))
        with (escaped (mandelbrot_iterate center_r center_i k)).
      destruct (escaped (mandelbrot_iterate center_r center_i k)) eqn:Hesc.
      * exists (S k). split; [reflexivity|]. split; [lia|]. split.
        -- intros j Hj. apply Hbefore. lia.
        -- intros _. split; [lia|].
           replace (S k - 1)%nat with k by lia. exact Hesc.
      * rewrite wrap_int_small by (unfold INT_MIN, INT_MAX in *; lia).
        replace (Z.of_nat k + 1) with (Z.of_nat (S k)) by lia.
        destruct (IH (S k)) as (n & Hrun & Hn & Hno & Hlast); [lia | lia | |].
        -- intros j Hj. destruct (Nat.eq_dec j k) as [->|Hjk];
             [exact Hesc | apply Hbefore; lia].
        -- exists n. split; [exact Hrun|]. split; [lia|]. split; assumption.
Qed.

End OrbitFacts.

(** Where multiplication commutes and distributes over addition (exact
    arithmetic), [mandelbrot_step] is the complex square plus the centre;
    the source computes the imaginary part [2 xr xi] as [(xr + xr) xi]. *)
Section ExactArithmetic.

Context {mpf : Type} `{MpfOps mpf}.

Hypothesis mul_comm : forall a b : mpf, mpf_mul a b = mpf_mul b a.
Hypothesis mul_add_distr_r :
  forall a b c : mpf, mpf_mul (mpf_add a b) c = mpf_add (mpf_mul a c) (mpf_mul b c).

Lemma mandelbrot_step_square (cr ci : mpf) (X : mpf * mpf) :
  mandelbrot_step cr ci X = mpf_cadd (mpf_cmul X X) (cr, ci).
Proof.
  unfold mandelbrot_step, mpf_cadd, mpf_cmul, twice. cbn [fst snd].
  rewrite mul_add_distr_r, (mul_comm (snd X) (fst X)). reflexivity.
Qed.

End ExactArithmetic.

(** C3. For every centre and every [depth > 0], [deep_zoom_point] returns
    an orbit [v] of between 1 and [depth] samples whose [k]-th sample is
    twice the [k]-th iterate of [X -> X^2 + center] from the centre,
    converted to double. No iterate before that of the last sample has a
    doubled component beyond 1024 in absolute value; the orbit is shorter
    than [depth] only when the iterate of its last sample has one (the
    sample is appended, then tested); otherwise its length is [depth]. *)
Theorem deep_zoom_point_orbit :
  forall (mpf : Type) (ops : MpfOps mpf) (fuel : nat)
         (center_r center_i : mpf) (depth : Z),
    0 < depth <= INT_MAX ->
    (Z.to_nat depth < fuel)%nat ->
    exists v,
      deep_zoom_point fuel center_r center_i depth = Done v
      /\ (1 <= length v <= Z.to_nat depth)%nat
      /\ (forall k, (k < length v)%nat ->
            nth_error v k =
            Some (doubled_sample (mandelbrot_iterate center_r center_i k)))
      /\ (forall k, (S k < length v)%nat ->
            escaped (mandelbrot_iterate center_r center_i k) = false)
      /\ ((length v < Z.to_nat depth)%nat ->
          escaped (mandelbrot_iterate center_r center_i (length v - 1)) = true)
      /\ ((forall k, (k < Z.to_nat depth)%nat ->
             escaped (mandelbrot_iterate center_r center_i k) = false) ->
          length v = Z.to_nat depth).
Proof.
  intros mpf ops fuel center_r center_i depth Hdepth Hfuel.
  destruct (deep_zoom_loop_run center_r center_i depth ltac:(lia) fuel 0)
    as (n & Hrun & Hn & Hno & Hlast); [lia | lia | intros j Hj; lia |].
  exists (orbit_samples center_r center_i n).
  rewrite orbit_samples_length.
  assert (Hn1 : (1 <= n)%nat).
  { destruct (Nat.eq_dec n (Z.to_nat depth)) as [->|Hne]; [lia|].
    apply Hlast. lia. }
  split; [exact Hrun|]. split; [lia|]. split; [|split; [|split]].
  - intros k Hk. apply orbit_samples_nth. exact Hk.
  - exact Hno.
  - intros Hshort. apply Hlast. exact Hshort.
  - intros Hnone.
    destruct (Nat.eq_dec n (Z.to_nat depth)) as [E|Hne]; [exact E|].
    destruct Hlast as [_ Hesc]; [lia|].
    rewrite Hnone in Hesc by lia. discriminate.
Qed.

Section OriginFacts.

Context {mpf : Type} `{MpfZeroLaws mpf}.

Lemma mandelbrot_iterate_origin (k : nat) :
  mandelbrot_iterate (mpf_of_si 0) (mpf_of_si 0) k = (mpf_of_si 0, mpf_of_si 0).
Proof.
  induction k as [|k IH]; [reflexivity|].
  cbn [mandelbrot_iterate]. rewrite IH.
  unfold mandelbrot_step, twice. cbn [fst snd].
  rewrite zero_mul, zero_sub, !zero_add, zero_mul, zero_add. reflexivity.
Qed.

Lemma escaped_origin (k : nat) :
  escaped (mandelbrot_iterate (mpf_of_si 0) (mpf_of_si 0) k) = false.
Proof.
  rewrite mandelbrot_iterate_origin.
  unfold escaped, too_big, twice. cbn [fst snd].
  rewrite zero_add, zero_gt_1024, zero_lt_m1024. reflexivity.
Qed.

Lemma doubled_sample_origin (k : nat) :
  doubled_sample (mandelbrot_iterate (mpf_of_si 0) (mpf_of_si 0) k)
  = (0%float, 0%float).
Proof.
  rewrite mandelbrot_iterate_origin.
  unfold doubled_sample, twice. cbn [fst snd].
  rewrite zero_add, zero_get_d. reflexivity.
Qed.

Lemma orbit_samples_origin (n : nat) :
  orbit_samples (mpf_of_si 0) (mpf_of_si 0) n = repeat (0%float, 0%float) n.
Proof.
  induction n as [|n IH]; [reflexivity|].
  rewrite orbit_samples_S, IH, doubled_sample_origin.
  symmetry. apply repeat_cons.
Qed.

End OriginFacts.

(** C8. For the centre (0, 0) and [depth = 1000], as [main] starts,
    every iterate is zero, none passes the bailout test, and
    [deep_zoom_point] returns an orbit of exactly 1000 samples, each the
    double (0, 0). *)
Theorem deep_zoom_point_origin :
  forall (mpf : Type) (ops : MpfOps mpf) (laws : MpfZeroLaws mpf) (fuel : nat),
    (1000 < fuel)%nat ->
    (forall k, mandelbrot_iterate (mpf_of_si 0) (mpf_of_si 0) k
               = (mpf_of_si 0, mpf_of_si 0))
    /\ (forall k, escaped (mandelbrot_iterate (mpf_of_si 0) (mpf_of_si 0) k)
                  = false)
    /\ exists v,
         deep_zoom_point fuel (mpf_of_si 0) (mpf_of_si 0) 1000 = Done v
         /\ length v = 1000%nat
         /\ v = repeat (0%float, 0%float) 1000.
Proof.
  intros mpf ops laws fuel Hfuel.
  split; [apply mandelbrot_iterate_origin|].
  split; [apply escaped_origin|].
  destruct (deep_zoom_loop_run (mpf_of_si 0) (mpf_of_si 0) 1000
              ltac:(unfold INT_MAX; lia) fuel 0)
    as (n & Hrun & Hn & _ & Hlast);
    [lia | simpl; lia | intros j Hj; lia |].
  assert (En : n = 1000%nat).
  { destruct (Nat.eq_dec n 1000) as [E|Hne]; [exact E|].
    destruct Hlast as [_ Hesc]; [simpl; lia|].
    rewrite escaped_origin in Hesc. discriminate. }
  subst n. exists (orbit_samples (mpf_of_si 0) (mpf_of_si 0) 1000).
  split; [exact Hrun|]. split; [apply orbit_samples_length|].
  apply orbit_samples_origin.
Qed.

(** ** The statements at concrete inputs *)

(** The dyadic numbers satisfy the laws of zero. *)
#[export] Instance dyadic_zero_laws : MpfZeroLaws dyadic.
Proof. split; reflexivity. Qed.

(** C1 on an orbit of two samples at the reference point itself. *)
Lemma pt_iter_le_orbit_length_witness :
  exists st,
    pt_iterate (fun _ => (0%float, 0%float)) 3
               [(0%float, 0%float); (0%float, 0%float)] (0%float, 0%float)
    = Done st
    /\ iter st <= 2.
Proof.
  destruct (pt_iter_le_orbit_length (fun _ => (0%float, 0%float)) 3
              [(0%float, 0%float); (0%float, 0%float)] (0%float, 0%float))
    as (st & Hrun & Hle & _).
  - discriminate.
  - simpl. lia.
  - exists st. split; [exact Hrun | exact Hle].
Defined.

(** C10 on an orbit of two samples and a pixel offset that is beyond the
    escape threshold from the start. *)
Lemma pt_iter_at_least_1_witness :
  exists st,
    pt_iterate (fun _ => (0%float, 0%float)) 3
               [(0%float, 0%float); (0%float, 0%float)] (300%float, 0%float)
    = Done st
    /\ 1 <= iter st.
Proof.
  destruct (pt_iter_at_least_1 (fun _ => (0%float, 0%float)) 3
              [(0%float, 0%float); (0%float, 0%float)] (300%float, 0%float))
    as (Hlive & _).
  - simpl. lia.
  - apply Hlive. discriminate.
Defined.

(** C9 on the gradient of [main]: a table of 600 colours. *)
Lemma color_table_default_anchors_witness :
  exists v,
    color_table (fun _ => 0) 101 default_anchors = Done v
    /\ length v = 600%nat.
Proof.
  destruct (color_table_length_and_anchors (fun _ => 0) 101 default_anchors)
    as (v & Hrun & Hlen & _).
  - simpl. lia.
  - unfold default_anchors.
    repeat (apply Forall_cons;
            [unfold sf.wf, sf.is_Uint8; vm_compute; intuition discriminate|]).
    apply Forall_nil.
  - lia.
  - exists v. split; [exact Hrun | exact Hlen].
Defined.

(** C5 on a palette of two colours. *)
Lemma palette_index_in_bounds_witness :
  exists i c,
    palette_index (fun _ => 0) (fun y => y) [sf.Black; sf.Red] 300%float 3
    = Done i
    /\ 0 <= i < 2
    /\ nth_error [sf.Black; sf.Red] (Z.to_nat i) = Some c
    /\ palette (fun _ => 0) (fun y => y) [sf.Black; sf.Red] 300%float 3 = Done c.
Proof.
  destruct (palette_index_in_bounds (fun _ => 0) (fun y => y)
              [sf.Black; sf.Red] 300%float 3)
    as (i & c & Hidx & Hi & Hc & Hpal & _).
  - discriminate.
  - unfold INT_MAX. simpl. lia.
  - exists i, c. repeat split; try assumption; apply Hi.
Defined.

(** C4, amended, on a one-sample orbit and a 2 by 2 window. *)
Lemma pt_guards_palette_witness :
  exists st,
    pt_iterate (fun _ => (0%float, 0%float)) 2 [(0%float, 0%float)]
               (pixel_offset 2 (sf.mkVector2u 2 2) 1 1)
    = Done st
    /\ (PrimFloat.leb (zn_size st) 1 = true ->
        pt (fun _ => 0) (fun y => y) (fun _ => (0%float, 0%float)) 2 1 1
           [(0%float, 0%float)] (sf.mkVector2u 2 2) 2 [sf.Black; sf.Red]
        = Done sf.Black).
Proof.
  destruct (pt_guards_palette (fun _ => 0) (fun y => y)
              (fun _ => (0%float, 0%float)) 2 1 1 [(0%float, 0%float)]
              (sf.mkVector2u 2 2) 2 [sf.Black; sf.Red])
    as (st & Hrun & Hsmall & _).
  - discriminate.
  - unfold INT_MAX. simpl. lia.
  - discriminate.
  - unfold INT_MAX. simpl. lia.
  - simpl. lia.
  - exists st. split; [exact Hrun | exact Hsmall].
Defined.

(** C7 on a window two pixels wide and zero pixels high. *)
Lemma update_zero_area_witness :
  update (fun _ => 0) (fun y => y) (fun _ => (0%float, 0%float))
         (sf.mkVector2u 2 0) [(0%float, 0%float)] 2 [sf.Black; sf.Red] 3
         (new_vertex_array (sf.mkVector2u 2 0))
  = Done (mk_frame [] []).
Proof.
  apply (update_zero_area (fun _ => 0) (fun y => y)
           (fun _ => (0%float, 0%float)) (sf.mkVector2u 2 0)
           [(0%float, 0%float)] 2 [sf.Black; sf.Red] 3 []).
  - right. reflexivity.
  - simpl. lia.
  - simpl. lia.
Defined.

(** C3 at the centre 2 + 2i, which escapes: the orbit is cut short. *)
Lemma deep_zoom_point_orbit_witness :
  exists v,
    deep_zoom_point 9 (mkDyadic 2 0) (mkDyadic 2 0) 8 = Done v
    /\ (1 <= length v <= 8)%nat.
Proof.
  destruct (deep_zoom_point_orbit dyadic dyadic_ops 9
              (mkDyadic 2 0) (mkDyadic 2 0) 8)
    as (v & Hrun & Hlen & _).
  - unfold INT_MAX. lia.
  - simpl. lia.
  - exists v. split; [exact Hrun | exact Hlen].
Defined.

(** C8 on the dyadic numbers. *)
Lemma deep_zoom_point_origin_witness :
  exists v,
    deep_zoom_point 1001 (mkDyadic 0 0) (mkDyadic 0 0) 1000 = Done v
    /\ length v = 1000%nat.
Proof.
  destruct (deep_zoom_point_origin dyadic dyadic_ops dyadic_zero_laws 1001)
    as (_ & _ & v & Hrun & Hlen & _).
  - lia.
  - exists v. split; [exact Hrun | exact Hlen].
Defined.

(** * Further properties *)

(** ** The loop of [pt], pass by pass *)

Section PtPasses.

Variable stray : Z -> complex.
Variable x : list complex.
Variable d0 : complex.

Lemma pt_pass_S (k : nat) :
  pt_pass stray x d0 (S k) = pt_body stray x d0 (pt_pass stray x d0 k).
Proof. reflexivity. Qed.

Lemma iter_pt_pass (k : nat) :
  Z.of_nat k <= INT_MAX -> iter (pt_pass stray x d0 k) = Z.of_nat k.
Proof.
  induction k as [|k IH]; intros Hk; [reflexivity|].
  rewrite pt_pass_S, iter_pt_body, IH by lia.
  rewrite wrap_int_small by (unfold INT_MIN, INT_MAX in *; lia). lia.
Qed.

Lemma reads_pt_pass (k : nat) :
  Z.of_nat k <= INT_MAX -> reads (pt_pass stray x d0 k) = pass_reads k.
Proof.
  unfold pass_reads.
  induction k as [|k IH]; intros Hk; [reflexivity|].
  rewrite seq_S, flat_map_app. cbn [flat_map]. rewrite app_nil_r.
  rewrite pt_pass_S, reads_pt_body, iter_pt_body, IH by lia.
  rewrite iter_pt_pass by lia.
  rewrite wrap_int_small by (unfold INT_MIN, INT_MAX in *; lia).
  reflexivity.
Qed.

Lemma pass_reads_bound (k : nat) :
  forall r, In r (pass_reads k) -> 0 <= r <= Z.of_nat k.
Proof.
  unfold pass_reads. intros r Hr.
  apply in_flat_map in Hr. destruct Hr as (p & Hp & Hr).
  apply in_seq in Hp. simpl in Hr.
  destruct Hr as [<-|[<-|[]]]; lia.
Qed.

(** The loop entered after [k] passes leaves after [n] passes, the first
    pass beyond [k] at which the test fails. *)
Lemma pt_loop_passes (max_iter : Z) :
  max_iter <= INT_MAX ->
  forall (fuel k : nat),
    Z.of_nat k < Z.max 1 max_iter ->
    Z.max 1 max_iter - Z.of_nat k <= Z.of_nat fuel ->
    exists n,
      pt_loop stray fuel x d0 max_iter (pt_pass stray x d0 k)
      = Done (pt_pass stray x d0 n)
      /\ (k < n)%nat /\ Z.of_nat n <= Z.max 1 max_iter
      /\ (forall m, (k < m < n)%nat ->
            PrimFloat.ltb (zn_size (pt_pass stray x d0 m)) 256 = true)
      /\ (Z.of_nat n < max_iter ->
            PrimFloat.ltb (zn_size (pt_pass stray x d0 n)) 256 = false).
Proof.
  intros HM. induction fuel as [|fuel IH]; intros k Hk Hfuel.
  - lia.
  - rewrite pt_loop_S, <- pt_pass_S.
    assert (Hit : iter (pt_pass stray x d0 (S k)) = Z.of_nat (S k))
      by (apply iter_pt_pass; unfold INT_MAX in *; lia).
    rewrite Hit.
    destruct (PrimFloat.ltb (zn_size (pt_pass stray x d0 (S k))) 256) eqn:Hz;
      cbn [andb].
    + destruct (Z.ltb_spec (Z.of_nat (S k)) max_iter) as [Hlt|Hge].
      * destruct (IH (S k)) as (n & Hrun & Hkn & Hn & Hbefore & Hlast);
          [lia | lia |].
        exists n. split; [exact Hrun|]. split; [lia|]. split; [lia|].
        split; [|exact Hlast].
        intros m Hm. destruct (Nat.eq_dec m (S k)) as [->|Hne];
          [exact Hz | apply Hbefore; lia].
      * exists (S k). split; [reflexivity|]. split; [lia|]. split; [lia|].
        split; [intros m Hm; lia | intros Hc; lia].
    + exists (S k). split; [reflexivity|]. split; [lia|]. split; [lia|].
      split; [intros m Hm; lia | intros _; exact Hz].
Qed.

End PtPasses.

(** X1. Over a non-empty orbit the loop of [pt] returns the variables
    after [n] passes, where [n] is the escape time: the first pass whose
    [zn_size] is not below 256, or the length of the orbit when no
    earlier pass has one. The returned [iter] is [n]. *)
Theorem pt_iterate_escape_time :
  forall (stray : Z -> complex) (fuel : nat) (x : list complex) (d0 : complex),
    x <> [] ->
    Z.of_nat (length x) <= INT_MAX ->
    (length x < fuel)%nat ->
    exists n,
      pt_iterate stray fuel x d0 = Done (pt_pass stray x d0 n)
      /\ iter (pt_pass stray x d0 n) = Z.of_nat n
      /\ (1 <= n <= length x)%nat
      /\ (forall m, (1 <= m < n)%nat ->
            PrimFloat.ltb (zn_size (pt_pass stray x d0 m)) 256 = true)
      /\ ((n < length x)%nat ->
            PrimFloat.ltb (zn_size (pt_pass stray x d0 n)) 256 = false).
Proof.
  intros stray fuel x d0 Hne Hlen Hfuel.
  assert (Hpos : (1 <= length x)%nat)
    by (destruct x; [congruence | simpl; lia]).
  rewrite pt_iterate_nonempty by exact Hne. unfold int_of_size_t.
  rewrite wrap_int_small by (unfold INT_MIN; lia).
  destruct (pt_loop_passes stray x d0 (Z.of_nat (length x)) Hlen fuel 0)
    as (n & Hrun & Hn0 & Hn & Hbefore & Hlast); [lia | lia |].
  exists n. split; [exact Hrun|].
  split; [apply iter_pt_pass; unfold INT_MAX in *; lia|]. split; [lia|].
  split; [intros m Hm; apply Hbefore; lia | intros Hc; apply Hlast; lia].
Qed.

(** X2. Over a non-empty orbit the loop of [pt] reads the orbit at the
    indices 0, 1, 1, 2, ..., [iter - 1], [iter], in this order, so no
    read is beyond the returned [iter]; a pixel that leaves the loop
    before [iter] reaches the length of the orbit reads within bounds
    only. *)
Theorem pt_reads_up_to_iter :
  forall (stray : Z -> complex) (fuel : nat) (x : list complex) (d0 : complex),
    x <> [] ->
    Z.of_nat (length x) <= INT_MAX ->
    (length x < fuel)%nat ->
    exists st,
      pt_iterate stray fuel x d0 = Done st
      /\ reads st = pass_reads (Z.to_nat (iter st))
      /\ (forall r, In r (reads st) -> 0 <= r <= iter st)
      /\ (iter st < Z.of_nat (length x) ->
          forall r, In r (reads st) -> 0 <= r < Z.of_nat (length x)).
Proof.
  intros stray fuel x d0 Hne Hlen Hfuel.
  destruct (pt_loop_passes stray x d0 (Z.of_nat (length x)) Hlen fuel 0)
    as (n & Hrun & Hn0 & Hn & _); [lia | lia |].
  assert (HnI : Z.of_nat n <= INT_MAX) by (unfold INT_MAX in *; lia).
  exists (pt_pass stray x d0 n).
  assert (Hbound : forall r, In r (reads (pt_pass stray x d0 n)) ->
                             0 <= r <= iter (pt_pass stray x d0 n)).
  { intros r Hr. rewrite reads_pt_pass in Hr by exact HnI.
    rewrite iter_pt_pass by exact HnI. apply pass_reads_bound. exact Hr. }
  split.
  - rewrite pt_iterate_nonempty by exact Hne. unfold int_of_size_t.
    rewrite wrap_int_small by (unfold INT_MIN; lia). exact Hrun.
  - split.
    + rewrite iter_pt_pass, Nat2Z.id by exact HnI.
      apply reads_pt_pass. exact HnI.
    + split; [exact Hbound|].
      intros Hshort r Hr. specialize (Hbound r Hr). lia.
Qed.

(** ** Doubles: arithmetic on zeros *)

Lemma Prim2SF_zero : Prim2SF 0%float = S754_zero false.
Proof. vm_compute. reflexivity. Qed.

Lemma is_zero_is_finite (u : float) :
  is_zero_double u = true -> is_finite_double u = true.
Proof.
  unfold is_zero_double, is_finite_double.
  destruct (Prim2SF u); intros Hu; congruence.
Qed.

Lemma add_finite_zero (u z : float) :
  is_finite_double u = true -> is_zero_double z = true ->
  is_finite_double (u + z) = true.
Proof.
  unfold is_finite_double, is_zero_double.
  rewrite add_spec. unfold SF64add, SFadd.
  destruct (Prim2SF u) as [su|su| |su mu eu];
    destruct (Prim2SF z) as [sz|sz| |sz mz ez]; intros Hu Hz;
    try discriminate; try reflexivity.
  destruct su, sz; reflexivity.
Qed.

Lemma mul_zero_finite (z u : float) :
  is_zero_double z = true -> is_finite_double u = true ->
  is_zero_double (z * u) = true.
Proof.
  unfold is_finite_double, is_zero_double.
  rewrite mul_spec. unfold SF64mul, SFmul.
  destruct (Prim2SF z) as [sz|sz| |sz mz ez];
    destruct (Prim2SF u) as [su|su| |su mu eu]; intros Hz Hu;
    try discriminate; reflexivity.
Qed.

Lemma add_zero_zero (u v : float) :
  is_zero_double u = true -> is_zero_double v = true ->
  is_zero_double (u + v) = true.
Proof.
  unfold is_zero_double.
  rewrite add_spec. unfold SF64add, SFadd.
  destruct (Prim2SF u) as [su|su| |su mu eu];
    destruct (Prim2SF v) as [sv|sv| |sv mv ev]; intros Hu Hv;
    try discriminate.
  destruct su, sv; reflexivity.
Qed.

Lemma sub_zero_zero (u v : float) :
  is_zero_double u = true -> is_zero_double v = true ->
  is_zero_double (u - v) = true.
Proof.
  unfold is_zero_double.
  rewrite sub_spec. unfold SF64sub, SFsub.
  destruct (Prim2SF u) as [su|su| |su mu eu];
    destruct (Prim2SF v) as [sv|sv| |sv mv ev]; intros Hu Hv;
    try discriminate.
  destruct su, sv; reflexivity.
Qed.

(** The square of a double does not see the sign of a zero added to it. *)
Lemma square_add_zero (u z : float) :
  is_zero_double z = true -> ((u + z) * (u + z) = u * u)%float.
Proof.
  unfold is_zero_double. intros Hz.
  apply Prim2SF_inj. rewrite !mul_spec, add_spec.
  unfold SF64add, SFadd, SF64mul.
  destruct (Prim2SF u) as [su|su| |su mu eu];
    destruct (Prim2SF z) as [sz|sz| |sz mz ez];
    try discriminate; try reflexivity.
  destruct su, sz; reflexivity.
Qed.

Lemma norm_add_zero (c dz : complex) :
  is_zero_complex dz = true -> norm (cadd c dz) = norm c.
Proof.
  unfold is_zero_complex, norm, cadd, real, imag. cbn [fst snd].
  intros Hz. apply andb_prop in Hz. destruct Hz as [Hr Hi].
  rewrite (square_add_zero _ _ Hr), (square_add_zero _ _ Hi). reflexivity.
Qed.

(** A zero offset stays a zero through one pass of the recurrence
    [dn <- dn * (x + dn) + d0] over a finite sample. *)
Lemma recurrence_keeps_zero (c dn d0 : complex) :
  is_finite_complex c = true ->
  is_zero_complex dn = true ->
  is_zero_complex d0 = true ->
  is_zero_complex (cadd (cmul dn (cadd c dn)) d0) = true.
Proof.
  unfold is_finite_complex, is_zero_complex, cadd, cmul, real, imag.
  cbn [fst snd].
  intros Hc Hdn Hd0.
  apply andb_prop in Hc. destruct Hc as [Hcr Hci].
  apply andb_prop in Hdn. destruct Hdn as [Hdr Hdi].
  apply andb_prop in Hd0. destruct Hd0 as [H0r H0i].
  pose proof (add_finite_zero _ _ Hcr Hdr) as Har.
  pose proof (add_finite_zero _ _ Hci Hdi) as Hai.
  apply andb_true_intro. split.
  - apply add_zero_zero; [|exact H0r].
    apply sub_zero_zero; apply mul_zero_finite; assumption.
  - apply add_zero_zero; [|exact H0i].
    apply add_zero_zero; apply mul_zero_finite; assumption.
Qed.

(** ** [pt] at the reference point, and the colours it returns *)

Section ReferencePoint.

Variable stray : Z -> complex.
Variable x : list complex.
Variable d0 : complex.

Hypothesis x_int : Z.of_nat (length x) <= INT_MAX.
Hypothesis x_finite : Forall (fun c => is_finite_complex c = true) x.
Hypothesis d0_zero : is_zero_complex d0 = true.

Lemma orbit_at_in_range (k : nat) (c : complex) :
  nth_error x k = Some c -> orbit_at stray x (Z.of_nat k) = c.
Proof.
  intros Hk. unfold orbit_at.
  assert (Hlt : (k < length x)%nat) by (apply nth_error_Some; congruence).
  replace ((0 <=? Z.of_nat k) && (Z.of_nat k <? Z.of_nat (length x)))
    with true
    by (symmetry; apply andb_true_intro; split;
        [apply Z.leb_le | apply Z.ltb_lt]; lia).
  rewrite Nat2Z.id. apply nth_error_nth. exact Hk.
Qed.

Lemma dn_pt_pass_zero (k : nat) :
  (k <= length x)%nat -> is_zero_complex (dn (pt_pass stray x d0 k)) = true.
Proof.
  induction k as [|k IH]; intros Hk; [exact d0_zero|].
  rewrite pt_pass_S. unfold pt_body. cbn [dn].
  rewrite iter_pt_pass by (unfold INT_MAX in *; lia).
  destruct (nth_error x k) as [c|] eqn:Hc;
    [|apply nth_error_None in Hc; lia].
  rewrite (orbit_at_in_range k c Hc).
  apply recurrence_keeps_zero; [|apply IH; lia | exact d0_zero].
  rewrite Forall_forall in x_finite. apply x_finite.
  eapply nth_error_In. exact Hc.
Qed.

Lemma zn_size_pt_pass (k : nat) (c : complex) :
  nth_error x (S k) = Some c ->
  zn_size (pt_pass stray x d0 (S k)) = norm (cscale c 0.5).
Proof.
  intros Hc.
  assert (Hlt : (S k < length x)%nat) by (apply nth_error_Some; congruence).
  pose proof (dn_pt_pass_zero (S k) ltac:(lia)) as Hz.
  rewrite pt_pass_S in *. unfold pt_body in *. cbn [dn zn_size] in *.
  rewrite iter_pt_pass in * by (unfold INT_MAX in *; lia).
  rewrite wrap_int_small by (unfold INT_MIN, INT_MAX in *; lia).
  replace (Z.of_nat k + 1) with (Z.of_nat (S k)) by lia.
  rewrite (orbit_at_in_range (S k) c Hc).
  apply norm_add_zero. exact Hz.
Qed.

End ReferencePoint.

(** X3. At the reference point itself (both components of the pixel
    offset are zero, of either sign) over a non-empty orbit of finite
    samples, [dn] stays zero, and if every sample after the first has
    [|x[k] * 0.5|^2 < 256] the loop runs to [iter = orbit.length]; [pt]
    then colours the pixel black. *)
Theorem pt_at_reference_point :
  forall (stray : Z -> complex) (fuel : nat) (x : list complex) (d0 : complex),
    x <> [] ->
    Z.of_nat (length x) <= INT_MAX ->
    (length x < fuel)%nat ->
    Forall (fun c => is_finite_complex c = true) x ->
    is_zero_complex d0 = true ->
    (forall k c, nth_error x (S k) = Some c ->
                 PrimFloat.ltb (norm (cscale c 0.5)) 256 = true) ->
    exists st,
      pt_iterate stray fuel x d0 = Done st
      /\ iter st = Z.of_nat (length x)
      /\ is_zero_complex (dn st) = true
      /\ (forall (indef : float -> Z) (log2 : float -> float) (i j : Z)
                 (size : sf.Vector2u) (radius : float)
                 (gradient : list sf.Color),
            gradient <> [] ->
            Z.of_nat (length gradient) <= INT_MAX ->
            pixel_offset radius size i j = d0 ->
            pt indef log2 stray fuel i j x size radius gradient
            = Done sf.Black).
Proof.
  intros stray fuel x d0 Hne Hlen Hfuel Hfin Hd0 Hsmall.
  assert (Hpos : (1 <= length x)%nat)
    by (destruct x; [congruence | simpl; lia]).
  destruct (pt_loop_passes stray x d0 (Z.of_nat (length x)) Hlen fuel 0)
    as (n & Hrun & Hn0 & Hn & _ & Hlast); [lia | lia |].
  assert (Hit : iter (pt_pass stray x d0 n) = Z.of_nat n)
    by (apply iter_pt_pass; unfold INT_MAX in *; lia).
  assert (Hrun' : pt_iterate stray fuel x d0 = Done (pt_pass stray x d0 n)).
  { rewrite pt_iterate_nonempty by exact Hne. unfold int_of_size_t.
    rewrite wrap_int_small by (unfold INT_MIN; lia). exact Hrun. }
  clear Hrun. rename Hrun' into Hrun.
  assert (En : n = length x).
  { destruct (Nat.eq_dec n (length x)) as [E|Hneq]; [exact E|].
    assert (Hlt : (n < length x)%nat) by lia.
    specialize (Hlast ltac:(lia)).
    destruct n as [|k]; [lia|].
    destruct (nth_error x (S k)) as [c|] eqn:Hc;
      [|apply nth_error_None in Hc; lia].
    rewrite (zn_size_pt_pass stray x d0 Hlen Hfin Hd0 k c Hc) in Hlast.
    rewrite (Hsmall k c Hc) in Hlast. discriminate. }
  subst n. exists (pt_pass stray x d0 (length x)).
  split; [exact Hrun|]. split; [exact Hit|].
  split; [apply dn_pt_pass_zero; try assumption; lia|].
  intros indef log2 i j size radius gradient Hg Hglen Hoff.
  destruct (palette_returns indef log2 gradient
              (zn_size (pt_pass stray x d0 (length x)))
              (iter (pt_pass stray x d0 (length x))) Hg Hglen)
    as (k & c & _ & _ & _ & Hpal & _).
  unfold pt. rewrite Hoff, Hrun. cbn [bind]. rewrite Hpal. cbn [bind].
  rewrite Hit. unfold int_of_size_t.
  rewrite wrap_int_small by (unfold INT_MIN; lia).
  rewrite Z.eqb_refl. reflexivity.
Qed.

(** X4. Over a non-empty orbit and a non-empty palette, [pt] returns a
    colour, and the colour is black or an entry of the palette. *)
Theorem pt_black_or_palette_entry :
  forall (indef : float -> Z) (log2 : float -> float) (stray : Z -> complex)
         (fuel : nat) (i j : Z) (x : list complex) (size : sf.Vector2u)
         (radius : float) (gradient : list sf.Color),
    x <> [] ->
    gradient <> [] ->
    Z.of_nat (length gradient) <= INT_MAX ->
    (length x < fuel)%nat ->
    exists c,
      pt indef log2 stray fuel i j x size radius gradient = Done c
      /\ (c = sf.Black \/ In c gradient).
Proof.
  intros indef log2 stray fuel i j x size radius gradient Hx Hg Hglen Hfuel.
  destruct (pt_iterate_returns stray x (pixel_offset radius size i j) fuel
              Hx Hfuel)
    as (st & Hrun & _).
  destruct (palette_returns indef log2 gradient (zn_size st) (iter st) Hg Hglen)
    as (k & c & _ & _ & Hc & Hpal & _).
  unfold pt. rewrite Hrun. cbn [bind]. rewrite Hpal. cbn [bind].
  destruct (iter st =? int_of_size_t (Z.of_nat (length x))).
  - exists sf.Black. split; [reflexivity | left; reflexivity].
  - exists c. split; [reflexivity|]. right.
    eapply nth_error_In. exact Hc.
Qed.

(** ** [update] on a window with pixels *)

Lemma pt_loop_more_fuel (stray : Z -> complex) (x : list complex)
    (d0 : complex) (max_iter : Z) (fuel fuel' : nat) :
  (fuel <= fuel')%nat ->
  forall st r,
    pt_loop stray fuel x d0 max_iter st = Done r ->
    pt_loop stray fuel' x d0 max_iter st = Done r.
Proof.
  revert fuel'. induction fuel as [|fuel IH]; intros fuel' Hle st r.
  - discriminate.
  - destruct fuel' as [|fuel']; [lia|].
    rewrite !pt_loop_S.
    destruct (PrimFloat.ltb (zn_size (pt_body stray x d0 st)) 256
              && (iter (pt_body stray x d0 st) <? max_iter)).
    + apply IH. lia.
    + auto.
Qed.

(** Over a non-empty orbit, once the fuel exceeds the length of the
    orbit, [pt] returns a colour that does not depend on it. *)
Lemma pt_returns (indef : float -> Z) (log2 : float -> float)
    (stray : Z -> complex) (fuel : nat) (i j : Z) (x : list complex)
    (size : sf.Vector2u) (radius : float) (gradient : list sf.Color) :
  x <> [] ->
  gradient <> [] ->
  Z.of_nat (length gradient) <= INT_MAX ->
  (length x < fuel)%nat ->
  exists c,
    pt indef log2 stray fuel i j x size radius gradient = Done c
    /\ pt indef log2 stray (S (length x)) i j x size radius gradient = Done c.
Proof.
  intros Hx Hg Hglen Hfuel.
  destruct (pt_iterate_returns stray x (pixel_offset radius size i j)
              (S (length x)) Hx ltac:(lia)) as (st & Hrun & _).
  assert (Hrun' : pt_iterate stray fuel x (pixel_offset radius size i j)
                  = Done st).
  { rewrite pt_iterate_nonempty in * by exact Hx.
    apply (pt_loop_more_fuel _ _ _ _ (S (length x))); [lia | exact Hrun]. }
  destruct (palette_returns indef log2 gradient (zn_size st) (iter st) Hg Hglen)
    as (k & c & _ & _ & _ & Hpal & _).
  unfold pt. rewrite Hrun, Hrun'. cbn [bind]. rewrite Hpal. cbn [bind].
  destruct (iter st =? int_of_size_t (Z.of_nat (length x)));
    eexists; split; reflexivity.
Qed.

Lemma modify_in_range (set : list sf.Vertex) (idx : Z)
    (f : sf.Vertex -> sf.Vertex) :
  0 <= idx < Z.of_nat (length set) ->
  exists v set',
    nth_error set (Z.to_nat idx) = Some v
    /\ modify set idx f = Done set'
    /\ length set' = length set
    /\ nth_error set' (Z.to_nat idx) = Some (f v)
    /\ (forall m, m <> Z.to_nat idx -> nth_error set' m = nth_error set m).
Proof.
  intros Hidx. unfold modify.
  set (n := Z.to_nat idx).
  assert (Hn : (n < length set)%nat) by (unfold n; lia).
  destruct (nth_error set n) as [v|] eqn:Hv;
    [|apply nth_error_None in Hv; lia].
  exists v, (firstn n set ++ f v :: skipn (S n) set).
  assert (Hfn : length (firstn n set) = n)
    by (apply firstn_length_le; lia).
  split; [reflexivity|]. split; [reflexivity|]. split; [|split].
  - rewrite length_app. cbn [length]. rewrite Hfn, length_skipn. lia.
  - rewrite nth_error_app2 by lia. rewrite Hfn, Nat.sub_diag. reflexivity.
  - intros m Hm. destruct (Nat.lt_ge_cases m n) as [Hlt|Hge].
    + rewrite nth_error_app1 by lia. rewrite nth_error_firstn.
      destruct (Nat.ltb_spec m n); [reflexivity | lia].
    + rewrite nth_error_app2 by lia. rewrite Hfn.
      destruct (m - n)%nat as [|d] eqn:Hd; [lia|].
      cbn [nth_error]. rewrite nth_error_skipn. f_equal. lia.
Qed.

Lemma flat_map_after_map {A B C : Type} (f : B -> list C) (g : A -> B)
    (l : list A) :
  flat_map f (map g l) = flat_map (fun a => f (g a)) l.
Proof.
  induction l as [|a l IH]; [reflexivity|].
  cbn [map flat_map]. rewrite IH. reflexivity.
Qed.

Section UpdateDraws.

Variable indef : float -> Z.
Variable log2 : float -> float.
Variable stray : Z -> complex.
Variable size : sf.Vector2u.
Variable x : list complex.
Variable radius : float.
Variable gradient : list sf.Color.

Hypothesis width_pos : 0 < sf.x size.
Hypothesis height_pos : 0 < sf.y size.
Hypothesis area_int : sf.x size * sf.y size <= INT_MAX.
Hypothesis gradient_ne : gradient <> [].
Hypothesis gradient_int : Z.of_nat (length gradient) <= INT_MAX.
Hypothesis orbit_ne : x <> [].

Lemma pixel_index_lt (i j : Z) :
  0 <= i < sf.x size -> 0 <= j < sf.y size ->
  0 <= i + sf.x size * j < sf.x size * sf.y size.
Proof. intros Hi Hj. nia. Qed.

Lemma pixel_index_inj (i j i' j' : Z) :
  0 <= i < sf.x size -> 0 <= i' < sf.x size -> 0 <= j -> 0 <= j' ->
  i + sf.x size * j = i' + sf.x size * j' -> i = i' /\ j = j'.
Proof.
  intros Hi Hi' Hj Hj' E.
  assert (j = j') by nia. subst j'. lia.
Qed.

Lemma sides_int : sf.x size <= INT_MAX /\ sf.y size <= INT_MAX.
Proof. unfold INT_MAX in *. nia. Qed.

Lemma to_unsigned_small (z : Z) : 0 <= z <= INT_MAX -> to_unsigned z = z.
Proof.
  intros Hz. unfold to_unsigned. apply Z.mod_small.
  unfold INT_MAX in Hz. lia.
Qed.

Lemma update_column_run (i : Z) :
  0 <= i < sf.x size ->
  forall (fuel : nat) (j : Z) (fr : frame),
    0 <= j <= sf.y size ->
    (Z.to_nat (sf.y size - j) + length x < fuel)%nat ->
    length (buf fr) = Z.to_nat (sf.x size * sf.y size) ->
    exists fr',
      update_column indef log2 stray size x radius gradient fuel i j fr
      = Done fr'
      /\ length (buf fr') = Z.to_nat (sf.x size * sf.y size)
      /\ evaluated fr' =
         evaluated fr
         ++ map (fun k => (i, j + Z.of_nat k))
                (seq 0 (Z.to_nat (sf.y size - j)))
      /\ (forall j', j <= j' < sf.y size ->
            exists c,
              pt indef log2 stray (S (length x)) i j' x size radius gradient
              = Done c
              /\ nth_error (buf fr') (Z.to_nat (i + sf.x size * j'))
                 = Some (drawn_vertex i j' c))
      /\ (forall n,
            (forall j', j <= j' < sf.y size ->
                        n <> Z.to_nat (i + sf.x size * j')) ->
            nth_error (buf fr') n = nth_error (buf fr) n).
Proof.
  intros Hi. pose proof sides_int as [HW HH].
  induction fuel as [|fuel IH]; intros j fr Hj Hfuel Hlen.
  - lia.
  - cbn [update_column].
    rewrite (to_unsigned_small j) by lia.
    destruct (Z.eqb_spec j (sf.y size)) as [E|E].
    + exists fr. subst j. rewrite Z.sub_diag. cbn [Z.to_nat seq map].
      rewrite app_nil_r.
      split; [reflexivity|]. split; [exact Hlen|]. split; [reflexivity|].
      split; [intros j' Hj'; lia | intros n _; reflexivity].
    + pose proof (pixel_index_lt i j Hi ltac:(lia)) as Hidx.
      rewrite (to_unsigned_small (i + sf.x size * j)) by lia.
      destruct (modify_in_range (buf fr) (i + sf.x size * j)
                  (sf.with_position (float32_of_int i, float32_of_int j)))
        as (v & set1 & Hv & Hm1 & Hl1 & Hn1 & Ho1); [lia|].
      rewrite Hm1. cbn [bind].
      destruct (pt_returns indef log2 stray (S fuel) i j x size radius gradient
                  orbit_ne gradient_ne gradient_int ltac:(lia))
        as (c & Hpt & Hpt').
      rewrite Hpt. cbn [bind].
      destruct (modify_in_range set1 (i + sf.x size * j) (sf.with_color c))
        as (v1 & set2 & Hv1 & Hm2 & Hl2 & Hn2 & Ho2); [lia|].
      rewrite Hm2. cbn [bind].
      rewrite Hn1 in Hv1. injection Hv1 as <-.
      rewrite wrap_int_small by (unfold INT_MIN; lia).
      destruct (IH (j + 1)
                  (mk_frame set2 (evaluated fr ++ [(i, j)])))
        as (fr' & Hrun & Hlen' & Hev & Hdrawn & Hother);
        [lia | lia | cbn [buf]; lia |].
      exists fr'. split; [exact Hrun|]. split; [exact Hlen'|].
      split; [|split].
      * rewrite Hev. cbn [evaluated]. rewrite <- app_assoc. f_equal.
        replace (Z.to_nat (sf.y size - j))
          with (S (Z.to_nat (sf.y size - (j + 1)))) by lia.
        cbn [seq map app]. f_equal; [f_equal; lia|].
        rewrite <- seq_shift, map_map. apply map_ext.
        intros k. f_equal. lia.
      * intros j' Hj'. destruct (Z.eq_dec j' j) as [->|Hne].
        -- exists c. split; [exact Hpt'|].
           rewrite Hother.
           ++ cbn [buf]. rewrite Hn2. reflexivity.
           ++ intros j'' Hj'' Heq.
              apply Z2Nat.inj in Heq; [|nia|nia].
              apply pixel_index_inj in Heq; lia.
        -- apply Hdrawn. lia.
      * intros n Hn. rewrite Hother by (intros j' Hj'; apply Hn; lia).
        cbn [buf].
        rewrite Ho2, Ho1 by (apply Hn; lia). reflexivity.
Qed.

Lemma update_rows_run :
  forall (fuel : nat) (i : Z) (fr : frame),
    0 <= i <= sf.x size ->
    (Z.to_nat (sf.x size - i) + Z.to_nat (sf.y size) + length x < fuel)%nat ->
    length (buf fr) = Z.to_nat (sf.x size * sf.y size) ->
    exists fr',
      update_rows indef log2 stray size x radius gradient fuel i fr = Done fr'
      /\ length (buf fr') = Z.to_nat (sf.x size * sf.y size)
      /\ evaluated fr' =
         evaluated fr
         ++ flat_map (fun a => map (fun k => (i + Z.of_nat a, 0 + Z.of_nat k))
                                   (seq 0 (Z.to_nat (sf.y size))))
                     (seq 0 (Z.to_nat (sf.x size - i)))
      /\ (forall i' j', i <= i' < sf.x size -> 0 <= j' < sf.y size ->
            exists c,
              pt indef log2 stray (S (length x)) i' j' x size radius gradient
              = Done c
              /\ nth_error (buf fr') (Z.to_nat (i' + sf.x size * j'))
                 = Some (drawn_vertex i' j' c))
      /\ (forall n,
            (forall i' j', i <= i' < sf.x size -> 0 <= j' < sf.y size ->
                           n <> Z.to_nat (i' + sf.x size * j')) ->
            nth_error (buf fr') n = nth_error (buf fr) n).
Proof.
  pose proof sides_int as [HW HH].
  induction fuel as [|fuel IH]; intros i fr Hi Hfuel Hlen.
  - lia.
  - cbn [update_rows].
    rewrite (to_unsigned_small i) by lia.
    destruct (Z.eqb_spec i (sf.x size)) as [E|E].
    + exists fr. subst i. rewrite Z.sub_diag. cbn [Z.to_nat seq flat_map].
      rewrite app_nil_r.
      split; [reflexivity|]. split; [exact Hlen|]. split; [reflexivity|].
      split; [intros i' j' Hi'; lia | intros n _; reflexivity].
    + destruct (update_column_run i ltac:(lia) (S fuel) 0 fr)
        as (fr1 & Hcol & Hlen1 & Hev1 & Hdrawn1 & Hother1);
        [lia | rewrite Z.sub_0_r; lia | exact Hlen |].
      rewrite Hcol. cbn [bind].
      rewrite wrap_int_small by (unfold INT_MIN; lia).
      destruct (IH (i + 1) fr1)
        as (fr' & Hrun & Hlen' & Hev & Hdrawn & Hother);
        [lia | lia | exact Hlen1 |].
      exists fr'. split; [exact Hrun|]. split; [exact Hlen'|].
      split; [|split].
      * rewrite Hev, Hev1, <- app_assoc. f_equal.
        replace (Z.to_nat (sf.x size - i))
          with (S (Z.to_nat (sf.x size - (i + 1)))) by lia.
        cbn [seq flat_map]. rewrite Z.sub_0_r. f_equal.
        -- apply map_ext. intros k. f_equal. lia.
        -- rewrite <- seq_shift, flat_map_after_map.
           apply flat_map_ext. intros a. apply map_ext. intros k.
           f_equal. lia.
      * intros i' j' Hi' Hj'. destruct (Z.eq_dec i' i) as [->|Hne].
        -- destruct (Hdrawn1 j' ltac:(lia)) as (c & Hpt & Hnth).
           exists c. split; [exact Hpt|].
           rewrite Hother; [exact Hnth|].
           intros i'' j'' Hi'' Hj'' Heq.
           apply Z2Nat.inj in Heq; [|nia|nia].
           apply pixel_index_inj in Heq; lia.
        -- apply Hdrawn; lia.
      * intros n Hn.
        rewrite Hother by (intros i' j' Hi' Hj'; apply Hn; lia).
        apply Hother1. intros j' Hj'. apply Hn; lia.
Qed.

End UpdateDraws.

(** X5. On a window of [W > 0] by [H > 0] pixels whose vertex array has
    [W * H] entries, over a non-empty orbit and a non-empty palette,
    [update] returns; it calls [pt] once per pixel, column by column; it
    keeps the length of the array; and it leaves at index [i + W * j] the
    vertex of position [(i, j)] and of the colour [pt] returns for the
    pixel [(i, j)]. *)
Theorem update_draws_every_pixel :
  forall (indef : float -> Z) (log2 : float -> float) (stray : Z -> complex)
         (size : sf.Vector2u) (x : list complex) (radius : float)
         (gradient : list sf.Color) (fuel : nat) (set : list sf.Vertex),
    0 < sf.x size ->
    0 < sf.y size ->
    sf.x size * sf.y size <= INT_MAX ->
    length set = Z.to_nat (sf.x size * sf.y size) ->
    x <> [] ->
    gradient <> [] ->
    Z.of_nat (length gradient) <= INT_MAX ->
    (Z.to_nat (sf.x size) + Z.to_nat (sf.y size) + length x < fuel)%nat ->
    exists fr,
      update indef log2 stray size x radius gradient fuel set = Done fr
      /\ length (buf fr) = length set
      /\ evaluated fr
         = pixels_in_order (Z.to_nat (sf.x size)) (Z.to_nat (sf.y size))
      /\ (forall i j, 0 <= i < sf.x size -> 0 <= j < sf.y size ->
            exists c,
              pt indef log2 stray fuel i j x size radius gradient = Done c
              /\ nth_error (buf fr) (Z.to_nat (i + sf.x size * j))
                 = Some (drawn_vertex i j c)).
Proof.
  intros indef log2 stray size x radius gradient fuel set
         HW HH Harea Hlen Hx Hg Hglen Hfuel.
  destruct (update_rows_run indef log2 stray size x radius gradient
              HW HH Harea Hg Hglen Hx fuel 0 (mk_frame set []))
    as (fr & Hrun & Hlen' & Hev & Hdrawn & _);
    [lia | rewrite Z.sub_0_r; lia | exact Hlen |].
  exists fr. split; [exact Hrun|]. split; [lia|]. split.
  - rewrite Hev. cbn [evaluated app]. rewrite Z.sub_0_r.
    unfold pixels_in_order. apply flat_map_ext. intros a.
    apply map_ext. intros k. reflexivity.
  - intros i j Hi Hj.
    destruct (Hdrawn i j ltac:(lia) Hj) as (c & Hpt & Hnth).
    exists c. split; [|exact Hnth].
    destruct (pt_returns indef log2 stray fuel i j x size radius gradient
                Hx Hg Hglen ltac:(lia)) as (c' & Hc & Hc').
    rewrite Hc. rewrite Hc' in Hpt. exact Hpt.
Qed.

(** ** The orbit under a change of depth *)

Lemma firstn_orbit_samples {mpf : Type} `{MpfOps mpf} (cr ci : mpf)
    (k n : nat) :
  firstn k (orbit_samples cr ci n) = orbit_samples cr ci (Nat.min k n).
Proof.
  unfold orbit_samples. rewrite firstn_map. f_equal.
  revert k. generalize 0%nat.
  induction n as [|n IH]; intros s k.
  - rewrite Nat.min_0_r. apply firstn_nil.
  - destruct k as [|k]; [reflexivity|].
    cbn [seq firstn Nat.min]. f_equal. apply IH.
Qed.

(** X6. Lowering the depth truncates the orbit and changes no sample: the
    orbit [deep_zoom_point] returns for [depth] is the first [depth]
    samples of the orbit it returns for any larger [depth']; for
    [depth = 0] it is empty. *)
Theorem deep_zoom_point_depth_prefix :
  forall (mpf : Type) (ops : MpfOps mpf) (fuel : nat)
         (center_r center_i : mpf) (depth depth' : Z),
    0 <= depth <= depth' ->
    depth' <= INT_MAX ->
    (Z.to_nat depth' < fuel)%nat ->
    exists v v',
      deep_zoom_point fuel center_r center_i depth = Done v
      /\ deep_zoom_point fuel center_r center_i depth' = Done v'
      /\ v = firstn (Z.to_nat depth) v'
      /\ (depth = 0 -> v = []).
Proof.
  intros mpf ops fuel center_r center_i depth depth' Hd Hd' Hfuel.
  destruct (deep_zoom_loop_run center_r center_i depth ltac:(lia) fuel 0)
    as (n & Hrun & Hn & Hno & Hlast); [lia | lia | intros j Hj; lia |].
  destruct (deep_zoom_loop_run center_r center_i depth' ltac:(lia) fuel 0)
    as (n' & Hrun' & Hn' & Hno' & Hlast'); [lia | lia | intros j Hj; lia |].
  exists (orbit_samples center_r center_i n),
         (orbit_samples center_r center_i n').
  split; [exact Hrun|]. split; [exact Hrun'|].
  assert (En : n = Nat.min (Z.to_nat depth) n').
  { assert (Hle : (n <= n')%nat).
    { destruct (Nat.le_gt_cases n n') as [Hle|Hgt]; [exact Hle|].
      destruct Hlast' as [Hpos Hesc]; [lia|].
      rewrite Hno in Hesc by lia. discriminate. }
    destruct (Nat.eq_dec n (Z.to_nat depth)) as [E|Hne]; [lia|].
    destruct Hlast as [Hpos Hesc]; [lia|].
    destruct (Nat.eq_dec n n') as [E|Hne']; [lia|].
    rewrite Hno' in Hesc by lia. discriminate. }
  split.
  - rewrite firstn_orbit_samples, <- En. reflexivity.
  - intros ->. replace n with 0%nat by (simpl in Hn; lia). reflexivity.
Qed.

(** X7. With [depth = 0] the orbit is empty. Over the empty orbit the
    first read [x[0]] of the loop of [pt] faults: every call of [pt] is
    undefined, and so is [update] on a window that has a pixel. *)
Theorem depth_0_makes_every_pixel_undefined :
  forall (mpf : Type) (ops : MpfOps mpf) (center_r center_i : mpf)
         (indef : float -> Z) (log2 : float -> float) (stray : Z -> complex)
         (fuel : nat) (i j : Z) (size : sf.Vector2u) (radius : float)
         (gradient : list sf.Color) (set : list sf.Vertex),
    0 < sf.x size ->
    0 < sf.y size ->
    deep_zoom_point (S fuel) center_r center_i 0 = Done []
    /\ pt_iterate stray fuel [] (pixel_offset radius size i j) = Undefined
    /\ pt indef log2 stray fuel i j [] size radius gradient = Undefined
    /\ update indef log2 stray size [] radius gradient (S fuel) set
       = Undefined.
Proof.
  intros mpf ops center_r center_i indef log2 stray fuel i j size radius
         gradient set HW HH.
  split; [reflexivity|]. split; [reflexivity|]. split; [reflexivity|].
  unfold update. cbn [update_rows].
  change (to_unsigned 0) with 0.
  destruct (Z.eqb_spec 0 (sf.x size)) as [E|_]; [lia|].
  cbn [update_column].
  change (to_unsigned 0) with 0.
  destruct (Z.eqb_spec 0 (sf.y size)) as [E|_]; [lia|].
  unfold modify. destruct (nth_error _ _); reflexivity.
Qed.

(** ** Every colour of the table *)

Section TableFacts.

Variable indef : float -> Z.

Lemma to_Uint8_range (z : Z) : sf.is_Uint8 (to_Uint8 z).
Proof.
  unfold sf.is_Uint8, to_Uint8. apply Z.mod_pos_bound. lia.
Qed.

Lemma interpolate_wf (c1 c2 : sf.Color) (mid : float) :
  sf.wf (interpolate indef c1 c2 mid)
  /\ sf.a (interpolate indef c1 c2 mid) = 255.
Proof.
  unfold interpolate, sf.rgb, sf.wf. cbn [sf.r sf.g sf.b sf.a].
  repeat split; try apply to_Uint8_range; unfold sf.is_Uint8; lia.
Qed.

Lemma table_of_wf (first : sf.Color) (i : list sf.Color) :
  Forall (fun c => sf.wf c /\ sf.a c = 255) (table_of indef first i).
Proof.
  induction i as [|c i IH]; [constructor|].
  cbn [table_of]. apply Forall_app. split; [|exact IH].
  apply Forall_map. apply Forall_forall. intros d _. apply interpolate_wf.
Qed.

Lemma channel_constant_true :
  forallb (channel_constant indef) (seq 0 256) = true.
Proof. vm_compute. reflexivity. Qed.

Lemma interpolate_channel_constant (a : Z) (d : float) :
  sf.is_Uint8 a -> In d interpolation_steps ->
  interpolate_channel indef a a d = a.
Proof.
  unfold sf.is_Uint8. intros Ha Hd.
  pose proof channel_constant_true as Hall.
  set (l := seq 0 256) in Hall.
  assert (Hin : In (Z.to_nat a) l) by (apply in_seq; lia).
  clearbody l. rewrite forallb_forall in Hall.
  specialize (Hall _ Hin). unfold channel_constant in Hall.
  set (steps := interpolation_steps) in *. clearbody steps.
  rewrite forallb_forall in Hall. specialize (Hall d Hd).
  rewrite Z2Nat.id in Hall by lia. apply Z.eqb_eq. exact Hall.
Qed.

End TableFacts.

(** X8. For every anchor list, also empty, of one colour, or with
    channels out of range, [color_table] returns 100 colours per anchor,
    and every colour of the table is opaque with its channels in
    [0, 256); the table of the empty list is empty. *)
Theorem color_table_entries_wf :
  forall (indef : float -> Z) (fuel : nat) (gradient : list sf.Color),
    (100 < fuel)%nat ->
    exists v,
      color_table indef fuel gradient = Done v
      /\ length v = (100 * length gradient)%nat
      /\ Forall (fun c => sf.wf c /\ sf.a c = 255) v
      /\ (gradient = [] -> v = []).
Proof.
  intros indef fuel gradient Hfuel.
  destruct gradient as [|first rest].
  - exists []. repeat split; constructor.
  - exists (table_of indef first (first :: rest)).
    split; [|split; [|split]].
    + unfold color_table. rewrite color_table_from_run by assumption.
      reflexivity.
    + apply table_of_length.
    + apply table_of_wf.
    + discriminate.
Qed.

(** X9. A single anchor is interpolated with itself: the table is 100
    copies of the anchor, made opaque. *)
Theorem color_table_single_anchor :
  forall (indef : float -> Z) (fuel : nat) (c : sf.Color),
    sf.wf c ->
    (100 < fuel)%nat ->
    color_table indef fuel [c] = Done (repeat (opaque c) 100).
Proof.
  intros indef fuel c (Hr & Hg & Hb & _) Hfuel.
  unfold color_table. rewrite color_table_from_run by assumption.
  cbn [table_of hd app]. rewrite app_nil_r. f_equal.
  rewrite <- interpolation_steps_length, <- map_const.
  apply map_ext_in. intros d Hd.
  unfold interpolate, opaque, sf.rgb.
  rewrite !interpolate_channel_constant by assumption.
  unfold to_Uint8, sf.is_Uint8 in *.
  rewrite !Z.mod_small by lia. reflexivity.
Qed.

(** ** The text input *)



(** ** The colour mapper at its edges *)

(** X11. From the empty anchor list [color_table] builds the empty
    palette, and over the empty palette every call of [pt] is undefined:
    [palette] takes a remainder modulo [gradient.size() = 0]. *)
Theorem empty_palette_is_undefined :
  forall (indef : float -> Z) (log2 : float -> float) (stray : Z -> complex)
         (fuel : nat) (i j : Z) (x : list complex) (size : sf.Vector2u)
         (radius : float) (zn_size : float) (iter : Z),
    (length x < fuel)%nat ->
    color_table indef fuel [] = Done []
    /\ palette indef log2 [] zn_size iter = Undefined
    /\ pt indef log2 stray fuel i j x size radius [] = Undefined.
Proof.
  intros indef log2 stray fuel i j x size radius zn_size iter Hfuel.
  split; [reflexivity|]. split; [reflexivity|].
  destruct x as [|c x']; [reflexivity|].
  destruct (pt_iterate_returns stray (c :: x') (pixel_offset radius size i j)
              fuel ltac:(discriminate) Hfuel)
    as (st & Hrun & _).
  unfold pt. rewrite Hrun. reflexivity.
Qed.

(** X12. Where the smoothed value [nu] has a negative integer part [z]
    within the range of [int], the conversion to [size_t] adds [2^64]
    before the remainder is taken: the index is [(z + 2^64) mod length],
    not [z mod length]. For a table of 600 colours (six anchors) it is
    [(z + 16) mod 600], sixteen entries off the cyclic index. *)
Theorem palette_index_negative_nu :
  forall (indef : float -> Z) (log2 : float -> float)
         (gradient : list sf.Color) (zn_size : float) (iter : Z) (z : Z),
    gradient <> [] ->
    Z.of_nat (length gradient) <= INT_MAX ->
    trunc_double (palette_nu log2 zn_size iter) = Some z ->
    INT_MIN <= z < 0 ->
    palette_index indef log2 gradient zn_size iter
    = Done ((z + 2 ^ 64) mod Z.of_nat (length gradient))
    /\ (length gradient = 600%nat ->
        palette_index indef log2 gradient zn_size iter
        = Done ((z + 16) mod 600)).
Proof.
  intros indef log2 gradient zn_size iter z Hg Hglen Hz Hrange.
  destruct (palette_index_returns indef log2 gradient zn_size iter Hg Hglen)
    as (k & Hidx & _ & Hval).
  rewrite (int_of_double_in_range indef _ z Hz) in Hval
    by (unfold INT_MAX; lia).
  assert (Hconv : size_t_of_int z = z + 2 ^ 64).
  { unfold size_t_of_int. unfold INT_MIN in Hrange.
    rewrite <- (Z.mod_add z 1 (2 ^ 64)) by lia.
    rewrite Z.mod_small by lia. lia. }
  rewrite Hconv in Hval. subst k.
  split; [exact Hidx|].
  intros H600. rewrite Hidx, H600. f_equal.
  change (Z.of_nat 600) with 600.
  replace (z + 2 ^ 64) with (z + 16 + 30744573456182586 * 600) by lia.
  apply Z.mod_add. lia.
Qed.

(** ** The further statements at concrete inputs *)

(** X1 on an orbit of three zero samples and a pixel far outside. *)
Lemma pt_iterate_escape_time_witness :
  exists n,
    pt_iterate (fun _ => (0%float, 0%float)) 4
      [(0%float, 0%float); (0%float, 0%float); (0%float, 0%float)]
      (30%float, 0%float)
    = Done (pt_pass (fun _ => (0%float, 0%float))
              [(0%float, 0%float); (0%float, 0%float); (0%float, 0%float)]
              (30%float, 0%float) n)
    /\ (1 <= n <= 3)%nat.
Proof.
  destruct (pt_iterate_escape_time (fun _ => (0%float, 0%float)) 4
              [(0%float, 0%float); (0%float, 0%float); (0%float, 0%float)]
              (30%float, 0%float))
    as (n & Hrun & _ & Hn & _).
  - discriminate.
  - unfold INT_MAX. simpl. lia.
  - simpl. lia.
  - exists n. split; [exact Hrun | exact Hn].
Defined.

(** X2 on the same orbit and pixel. *)
Lemma pt_reads_up_to_iter_witness :
  exists st,
    pt_iterate (fun _ => (0%float, 0%float)) 4
      [(0%float, 0%float); (0%float, 0%float); (0%float, 0%float)]
      (30%float, 0%float)
    = Done st
    /\ (forall r, In r (reads st) -> 0 <= r <= iter st).
Proof.
  destruct (pt_reads_up_to_iter (fun _ => (0%float, 0%float)) 4
              [(0%float, 0%float); (0%float, 0%float); (0%float, 0%float)]
              (30%float, 0%float))
    as (st & Hrun & _ & Hb & _).
  - discriminate.
  - unfold INT_MAX. simpl. lia.
  - simpl. lia.
  - exists st. split; [exact Hrun | exact Hb].
Defined.

(** X3 on the orbit of the origin and the centre pixel of a 2 by 2
    window, whose offset is [(0, -0)]. *)
Lemma pt_at_reference_point_witness :
  exists st,
    pt_iterate (fun _ => (0%float, 0%float)) 4
      [(0%float, 0%float); (0%float, 0%float); (0%float, 0%float)]
      (pixel_offset 2 (sf.mkVector2u 2 2) 1 1)
    = Done st
    /\ iter st = 3.
Proof.
  destruct (pt_at_reference_point (fun _ => (0%float, 0%float)) 4
              [(0%float, 0%float); (0%float, 0%float); (0%float, 0%float)]
              (pixel_offset 2 (sf.mkVector2u 2 2) 1 1))
    as (st & Hrun & Hit & _).
  - discriminate.
  - unfold INT_MAX. simpl. lia.
  - simpl. lia.
  - repeat (apply Forall_cons; [vm_compute; reflexivity|]). apply Forall_nil.
  - vm_compute. reflexivity.
  - intros k c Hc.
    destruct k as [|[|k]]; simpl in Hc;
      [injection Hc as <-; vm_compute; reflexivity
      |injection Hc as <-; vm_compute; reflexivity
      |destruct k; discriminate].
  - exists st. split; [exact Hrun | exact Hit].
Defined.

(** X4 on a one-sample orbit and a palette of two colours. *)
Lemma pt_black_or_palette_entry_witness :
  exists c,
    pt (fun _ => 0) (fun y => y) (fun _ => (0%float, 0%float)) 2 0 0
       [(0%float, 0%float)] (sf.mkVector2u 2 2) 2 [sf.Black; sf.Red]
    = Done c
    /\ (c = sf.Black \/ In c [sf.Black; sf.Red]).
Proof.
  apply (pt_black_or_palette_entry (fun _ => 0) (fun y => y)
           (fun _ => (0%float, 0%float)) 2 0 0 [(0%float, 0%float)]
           (sf.mkVector2u 2 2) 2 [sf.Black; sf.Red]).
  - discriminate.
  - discriminate.
  - unfold INT_MAX. simpl. lia.
  - simpl. lia.
Defined.

(** X5 on a 2 by 2 window. *)
Lemma update_draws_every_pixel_witness :
  exists fr,
    update (fun _ => 0) (fun y => y) (fun _ => (0%float, 0%float))
           (sf.mkVector2u 2 2) [(0%float, 0%float)] 2 [sf.Black; sf.Red] 6
           (new_vertex_array (sf.mkVector2u 2 2))
    = Done fr
    /\ evaluated fr = [(0, 0); (0, 1); (1, 0); (1, 1)].
Proof.
  destruct (update_draws_every_pixel (fun _ => 0) (fun y => y)
              (fun _ => (0%float, 0%float)) (sf.mkVector2u 2 2)
              [(0%float, 0%float)] 2 [sf.Black; sf.Red] 6
              (new_vertex_array (sf.mkVector2u 2 2)))
    as (fr & Hrun & _ & Hev & _).
  - simpl. lia.
  - simpl. lia.
  - unfold INT_MAX. simpl. lia.
  - reflexivity.
  - discriminate.
  - discriminate.
  - unfold INT_MAX. simpl. lia.
  - simpl. lia.
  - exists fr. split; [exact Hrun | exact Hev].
Defined.

(** X6 at the centre [-3/4 + i/8], depths 3 and 8. *)
Lemma deep_zoom_point_depth_prefix_witness :
  exists v v',
    deep_zoom_point 9 (mkDyadic (-3) (-2)) (mkDyadic 1 (-3)) 3 = Done v
    /\ deep_zoom_point 9 (mkDyadic (-3) (-2)) (mkDyadic 1 (-3)) 8 = Done v'
    /\ v = firstn 3 v'.
Proof.
  destruct (deep_zoom_point_depth_prefix dyadic dyadic_ops 9
              (mkDyadic (-3) (-2)) (mkDyadic 1 (-3)) 3 8)
    as (v & v' & Hrun & Hrun' & Hpre & _).
  - lia.
  - unfold INT_MAX. lia.
  - simpl. lia.
  - exists v, v'. split; [exact Hrun|]. split; [exact Hrun' | exact Hpre].
Defined.

(** X7 on a 2 by 2 window. *)
Lemma depth_0_makes_every_pixel_undefined_witness :
  deep_zoom_point 1 (mkDyadic 0 0) (mkDyadic 0 0) 0 = Done []
  /\ update (fun _ => 0) (fun y => y) (fun _ => (0%float, 0%float))
            (sf.mkVector2u 2 2) [] 2 [sf.Black; sf.Red] 1
            (new_vertex_array (sf.mkVector2u 2 2))
     = Undefined.
Proof.
  destruct (depth_0_makes_every_pixel_undefined dyadic dyadic_ops
              (mkDyadic 0 0) (mkDyadic 0 0) (fun _ => 0) (fun y => y)
              (fun _ => (0%float, 0%float)) 0 0 0 (sf.mkVector2u 2 2) 2
              [sf.Black; sf.Red] (new_vertex_array (sf.mkVector2u 2 2)))
    as (Horbit & _ & _ & Hupdate).
  - simpl. lia.
  - simpl. lia.
  - split; [exact Horbit | exact Hupdate].
Defined.

(** X8 on an anchor list with a channel out of range. *)
Lemma color_table_entries_wf_witness :
  exists v,
    color_table (fun _ => 0) 101 [sf.mkColor 300 0 0 255; sf.Blue] = Done v
    /\ length v = 200%nat.
Proof.
  destruct (color_table_entries_wf (fun _ => 0) 101
              [sf.mkColor 300 0 0 255; sf.Blue])
    as (v & Hrun & Hlen & _).
  - lia.
  - exists v. split; [exact Hrun | exact Hlen].
Defined.

(** X9 on the single anchor blue. *)
Lemma color_table_single_anchor_witness :
  color_table (fun _ => 0) 101 [sf.Blue] = Done (repeat (opaque sf.Blue) 100).
Proof.
  apply (color_table_single_anchor (fun _ => 0) 101 sf.Blue).
  - unfold sf.wf, sf.is_Uint8. vm_compute. intuition discriminate.
  - lia.
Defined.

(** X11 on a one-sample orbit. *)
Lemma empty_palette_is_undefined_witness :
  pt (fun _ => 0) (fun y => y) (fun _ => (0%float, 0%float)) 2 0 0
     [(0%float, 0%float)] (sf.mkVector2u 2 2) 2 []
  = Undefined.
Proof.
  apply (empty_palette_is_undefined (fun _ => 0) (fun y => y)
           (fun _ => (0%float, 0%float)) 2 0 0 [(0%float, 0%float)]
           (sf.mkVector2u 2 2) 2 0%float 0).
  simpl. lia.
Defined.

(** X12 for [nu = (1 - 3) * 10 = -20] on a palette of two colours. *)
Lemma palette_index_negative_nu_witness :
  palette_index (fun _ => 0) (fun _ => 3%float) [sf.Black; sf.Red] 300%float 1
  = Done ((- 20 + 2 ^ 64) mod 2).
Proof.
  apply (palette_index_negative_nu (fun _ => 0) (fun _ => 3%float)
           [sf.Black; sf.Red] 300%float 1 (- 20)).
  - discriminate.
  - unfold INT_MAX. simpl. lia.
  - vm_compute. reflexivity.
  - unfold INT_MIN. lia.
Defined.
